(** * SuperFlag configuration resolution engine (hooks/superflag.py)

    A shallow embedding of the configuration engine of the hook script:
    the key expander [expand_flag_keys], the directive cleaner
    [clean_directive_config], the merger [merge_configs], the include
    resolver [resolve_include_targets], the recursive loader
    [load_profile_tree], and the driver [load_config] together with
    [normalize_directives].

    Python values are modelled as a tagged tree, dictionaries as
    association lists in insertion order, exceptions as an error monad,
    and the file system as a finite table of files and directories. *)

From Stdlib Require Import List String Ascii ZArith Bool Arith Lia.
Import ListNotations.
Local Open Scope string_scope.

(** ** Strings: whitespace, [str.strip], the flag regex and [re.split] *)

(** Characters are code points below 256.  [str.isspace] (and the [\s]
    class of a [str] pattern) holds on exactly these. *)
Definition is_space (c : ascii) : bool :=
  let n := nat_of_ascii c in
  (((9 <=? n) && (n <=? 13)) || ((28 <=? n) && (n <=? 32))
   || (n =? 133) || (n =? 160))%nat.

Definition is_comma_or_pipe (c : ascii) : bool :=
  Ascii.eqb c "," || Ascii.eqb c "|".

(** The complement of the character class [[^,|\s]]. *)
Definition is_separator (c : ascii) : bool :=
  is_comma_or_pipe c || is_space c.

Definition is_empty (s : string) : bool :=
  match s with EmptyString => true | String _ _ => false end.

Fixpoint lstrip (s : string) : string :=
  match s with
  | EmptyString => EmptyString
  | String c r => if is_space c then lstrip r else s
  end.

Fixpoint rstrip (s : string) : string :=
  match s with
  | EmptyString => EmptyString
  | String c r =>
      let r' := rstrip r in
      if is_space c && is_empty r' then EmptyString else String c r'
  end.

(** [s.strip()] *)
Definition strip (s : string) : string := rstrip (lstrip s).

(** [re.findall(r'--[^,|\s]+', s)].  The scanner carries the match in
    progress: [Some tok] while inside a token, [None] while looking for the
    next occurrence of two dashes followed by a non-separator. *)
Fixpoint findall_flags_from (cur : option string) (s : string) : list string :=
  match cur with
  | Some tok =>
      match s with
      | EmptyString => [tok]
      | String c r =>
          if is_separator c then tok :: findall_flags_from None r
          else findall_flags_from (Some (tok ++ String c EmptyString)) r
      end
  | None =>
      match s with
      | EmptyString => []
      | String c r =>
          match r with
          | String c1 (String c2 r2) =>
              if Ascii.eqb c "-" && Ascii.eqb c1 "-" && negb (is_separator c2)
              then findall_flags_from (Some (String c (String c1 (String c2 EmptyString)))) r2
              else findall_flags_from None r
          | _ => findall_flags_from None r
          end
      end
  end.

Definition findall_flags (s : string) : list string :=
  findall_flags_from None s.

(** [re.split(r'[,|]', s)] *)
Fixpoint split_comma_pipe (s : string) : list string :=
  match s with
  | EmptyString => [EmptyString]
  | String c r =>
      if is_comma_or_pipe c then EmptyString :: split_comma_pipe r
      else match split_comma_pipe r with
           | h :: t => String c h :: t
           | [] => [String c EmptyString]
           end
  end.

(** ** Python values *)

Set Warnings "-register-all".

Inductive value : Type :=
| VNone
| VBool (b : bool)
| VInt (n : Z)
| VStr (s : string)
| VList (items : list value)
| VDict (entries : list (string * value)).

(** A [dict] with string keys, in insertion order. *)
Definition dict := list (string * value).

Fixpoint dict_get (d : dict) (k : string) : option value :=
  match d with
  | [] => None
  | (k', v) :: rest => if String.eqb k' k then Some v else dict_get rest k
  end.

Definition dict_mem (d : dict) (k : string) : bool :=
  match dict_get d k with Some _ => true | None => false end.

(** [d[k] = v]: an existing key keeps its position, a new key goes last. *)
Fixpoint dict_set (d : dict) (k : string) (v : value) : dict :=
  match d with
  | [] => [(k, v)]
  | (k', v') :: rest =>
      if String.eqb k' k then (k, v) :: rest
      else (k', v') :: dict_set rest k v
  end.

(** [d.pop(k, None)] with the popped value dropped. *)
Fixpoint dict_pop (d : dict) (k : string) : dict :=
  match d with
  | [] => []
  | (k', v') :: rest =>
      if String.eqb k' k then dict_pop rest k
      else (k', v') :: dict_pop rest k
  end.

Definition dict_keys (d : dict) : list string := map fst d.

(** Python truthiness, for [x or default]. *)
Definition truthy (v : value) : bool :=
  match v with
  | VNone => false
  | VBool b => b
  | VInt n => negb (Z.eqb n 0)
  | VStr s => negb (is_empty s)
  | VList l => match l with [] => false | _ => true end
  | VDict d => match d with [] => false | _ => true end
  end.

(** ** Key expander *)

(** [keys.add(k)] on a set kept in insertion order. *)
Definition set_add (k : string) (keys : list string) : list string :=
  if existsb (String.eqb k) keys then keys else keys ++ [k].

(** The loop [for x in xs: t = x.strip(); if t: keys.add(t)]. *)
Fixpoint add_trimmed (xs : list string) (keys : list string) : list string :=
  match xs with
  | [] => keys
  | x :: rest =>
      let t := strip x in
      add_trimmed rest (if is_empty t then keys else set_add t keys)
  end.

(** The strings among the items of an alias field that is a list. *)
Fixpoint alias_strings (items : list value) : list string :=
  match items with
  | [] => []
  | VStr s :: rest => s :: alias_strings rest
  | _ :: rest => alias_strings rest
  end.

(** One round of the [for alias_field in ('aliases', 'variations')] loop. *)
Definition add_alias_field (d : dict) (field : string) (keys : list string)
  : list string :=
  match dict_get d field with
  | Some (VList items) => add_trimmed (alias_strings items) keys
  | _ => keys
  end.

(** [expand_flag_keys(raw_key, directive)].  Keys are strings here, so the
    coercion [str(raw_key)] is the identity. *)
Definition expand_flag_keys (raw_key : string) (directive : value)
  : list string :=
  let keys := add_trimmed (findall_flags raw_key) [] in
  let keys :=
    match keys with
    | [] => add_trimmed (split_comma_pipe raw_key) []
    | _ => keys
    end in
  match directive with
  | VDict d => add_alias_field d "variations" (add_alias_field d "aliases" keys)
  | _ => keys
  end.

(** ** Directive cleaner *)

Definition is_alias_field (k : string) : bool :=
  String.eqb k "aliases" || String.eqb k "variations".

(** [clean_directive_config(directive)] *)
Definition clean_directive_config (directive : dict) : dict :=
  fold_left
    (fun cleaned kv =>
       if is_alias_field (fst kv) then cleaned
       else dict_set cleaned (fst kv) (snd kv))
    directive [].

(** ** Exceptions *)

Inductive exn : Type :=
| FileNotFoundError
| IsADirectoryError
| YAMLError
| ValueError
| TypeError
| AttributeError.

(** The outcome of a call: a returned value or a raised exception. *)
Inductive outcome (A : Type) : Type :=
| Return (a : A)
| Raise (e : exn).
Arguments Return {A} a.
Arguments Raise {A} e.

Definition bind {A B : Type} (m : outcome A) (f : A -> outcome B) : outcome B :=
  match m with
  | Return a => f a
  | Raise e => Raise e
  end.

Notation "x <- m ;; k" := (bind m (fun x => k))
  (at level 61, m at next level, right associativity).

(** ** Config merger *)

(** [directives.pop(k, None)] on whatever [result['directives']] holds:
    a list takes one argument at most, other non-mappings have no [pop]. *)
Definition directives_pop (dv : value) (k : string) : outcome value :=
  match dv with
  | VDict d => Return (VDict (dict_pop d k))
  | VList _ => Raise TypeError
  | _ => Raise AttributeError
  end.

(** [directives[k] = v]: only a mapping supports assignment under a string. *)
Definition directives_setitem (dv : value) (k : string) (v : value)
  : outcome value :=
  match dv with
  | VDict d => Return (VDict (dict_set d k v))
  | _ => Raise TypeError
  end.

Fixpoint pop_all (dv : value) (keys : list string) : outcome value :=
  match keys with
  | [] => Return dv
  | k :: rest => dv' <- directives_pop dv k ;; pop_all dv' rest
  end.

Fixpoint assign_all (dv : value) (keys : list string) (v : value)
  : outcome value :=
  match keys with
  | [] => Return dv
  | k :: rest => dv' <- directives_setitem dv k v ;; assign_all dv' rest v
  end.

(** The body of [for flag, directive in directives_overlay.items()].
    Copies made by [copy.deepcopy] are equal trees. *)
Definition merge_directive (dv : value) (flag : string) (directive : value)
  : outcome value :=
  let keys := expand_flag_keys flag directive in
  match directive with
  | VNone => dv' <- directives_pop dv flag ;; pop_all dv' keys
  | VDict d => assign_all dv keys (VDict (clean_directive_config d))
  | _ => assign_all dv keys directive
  end.

Fixpoint merge_directives (dv : value) (items : dict) : outcome value :=
  match items with
  | [] => Return dv
  | (flag, directive) :: rest =>
      dv' <- merge_directive dv flag directive ;; merge_directives dv' rest
  end.

(** [result.setdefault('directives', {})]: the dictionary afterwards and the
    object the call hands back. *)
Definition setdefault_directives (result : dict) : dict * value :=
  match dict_get result "directives" with
  | Some v => (result, v)
  | None => (dict_set result "directives" (VDict []), VDict [])
  end.

(** The first half of [merge_configs]: the flag-aware merge of the
    [directives] subtree.  The object returned by [setdefault] is the one
    stored in [result], so its final state is written back in place. *)
Definition merge_directives_section (result : dict) (overlay : value)
  : outcome dict :=
  match overlay with
  | VDict ov =>
      match dict_get ov "directives" with
      | Some (VDict directives_overlay) =>
          let (result', directives) := setdefault_directives result in
          directives' <- merge_directives directives directives_overlay ;;
          Return (dict_set result' "directives" directives')
      | _ => Return result
      end
  | _ => Return result
  end.

(** [result.get(key) if isinstance(result.get(key), dict) else {}] *)
Definition existing_mapping (result : dict) (key : string) : dict :=
  match dict_get result key with
  | Some (VDict d) => d
  | _ => []
  end.

Section GenericMerge.

(** The recursive call of [merge_configs]. *)
Variable merge : dict -> value -> outcome dict.

(** The loop [for key, value in overlay.items()] of the second half. *)
Fixpoint generic_merge (items : dict) (result : dict) : outcome dict :=
  match items with
  | [] => Return result
  | (key, v) :: rest =>
      if String.eqb key "directives" then generic_merge rest result
      else
        match v with
        | VNone => generic_merge rest (dict_pop result key)
        | VDict _ =>
            merged <- merge (existing_mapping result key) v ;;
            generic_merge rest (dict_set result key (VDict merged))
        | _ => generic_merge rest (dict_set result key v)
        end
  end.

End GenericMerge.

(** [merge_configs(base, overlay)]; [base] is a [dict] at every call site. *)
Fixpoint merge_configs (base : dict) (overlay : value) {struct overlay}
  : outcome dict :=
  result <- merge_directives_section base overlay ;;
  match overlay with
  | VDict ov => generic_merge merge_configs ov result
  | _ => Return result
  end.

(** ** Directive normalisation *)

Fixpoint assign_keys (normalized : dict) (keys : list string) (v : value)
  : dict :=
  match keys with
  | [] => normalized
  | k :: rest => assign_keys (dict_set normalized k v) rest v
  end.

(** The body of the loop of [normalize_directives]. *)
Definition normalize_entry (normalized : dict) (raw_key : string)
    (directive : value) : dict :=
  let keys := expand_flag_keys raw_key directive in
  match directive with
  | VNone => assign_keys normalized keys VNone
  | VDict d => assign_keys normalized keys (VDict (clean_directive_config d))
  | _ => assign_keys normalized keys directive
  end.

Definition normalize_map (directives : dict) : dict :=
  fold_left (fun normalized kv => normalize_entry normalized (fst kv) (snd kv))
            directives [].

(** [normalize_directives(config)], returning the updated [config]. *)
Definition normalize_directives (config : dict) : dict :=
  match dict_get config "directives" with
  | Some (VDict directives) =>
      dict_set config "directives" (VDict (normalize_map directives))
  | _ => config
  end.

(** ** File system *)

Definition path := string.

(** What [yaml.safe_load] makes of a file's content. *)
Inductive parsed : Type :=
| ParseError
| Document (doc : value).

(** The entries below a directory, each level listed in the order in which
    [sorted(directory.iterdir())] yields it. *)
Inductive dir_entry : Type :=
| EntryDir (p : path) (children : list dir_entry)
| EntryOther (p : path).

Record filesystem : Type := {
  fs_files : list (path * parsed);
  fs_dirs : list (path * list dir_entry)
}.

Fixpoint lookup {A : Type} (l : list (path * A)) (p : path) : option A :=
  match l with
  | [] => None
  | (q, a) :: rest => if String.eqb q p then Some a else lookup rest p
  end.

Definition is_file (fs : filesystem) (p : path) : bool :=
  match lookup (fs_files fs) p with Some _ => true | None => false end.

Definition is_dir (fs : filesystem) (p : path) : bool :=
  match lookup (fs_dirs fs) p with Some _ => true | None => false end.

Definition path_exists (fs : filesystem) (p : path) : bool :=
  is_dir fs p || is_file fs p.

(** [with resolved.open('r') as f: yaml.safe_load(f)].  The failures
    modelled are a missing file, a directory in place of the file and a
    parse failure; other failures of [open] and of decoding (permissions,
    bytes that are not UTF-8) are outside the model. *)
Definition open_and_parse (fs : filesystem) (p : path) : outcome value :=
  if is_dir fs p then Raise IsADirectoryError
  else match lookup (fs_files fs) p with
       | None => Raise FileNotFoundError
       | Some ParseError => Raise YAMLError
       | Some (Document doc) => Return doc
       end.

(** [str.lower] on the letters A to Z (no other character below 256
    lowers to a letter of the two extensions). *)
Definition lower_ascii (c : ascii) : ascii :=
  let n := nat_of_ascii c in
  if ((65 <=? n) && (n <=? 90))%nat then ascii_of_nat (n + 32) else c.

Fixpoint lower (s : string) : string :=
  match s with
  | EmptyString => EmptyString
  | String c r => String (lower_ascii c) (lower r)
  end.

Fixpoint ends_with (s suffix : string) : bool :=
  String.eqb s suffix
  || match s with
     | EmptyString => false
     | String _ r => ends_with r suffix
     end.

(** [name.lower().endswith(('.yaml', '.yml'))] *)
Definition has_yaml_extension (name : string) : bool :=
  ends_with (lower name) ".yaml" || ends_with (lower name) ".yml".

(** The operations of [pathlib] the engine relies on, taken as total
    functions: paths on which [pathlib] itself raises (an embedded NUL, an
    over-long name) are outside the model. *)
Record pathlib : Type := {
  path_of : string -> path;            (* [Path(s)] *)
  resolve : path -> path;              (* [p.resolve()] *)
  is_absolute : path -> bool;          (* [p.is_absolute()] *)
  parent_join : path -> path -> path;  (* [base.parent / p] *)
  suffix_lower : path -> string;       (* [p.suffix.lower()] *)
  sort_paths : list path -> list path; (* [sorted(ps)] *)
  profiles_dir_join : string -> path   (* [PROFILES_DIR / name] *)
}.

Section Engine.

Variable pl : pathlib.
Variable fs : filesystem.

(** ** Include resolver *)

Definition has_yaml_suffix (p : path) : bool :=
  String.eqb (suffix_lower pl p) ".yaml" || String.eqb (suffix_lower pl p) ".yml".

(** [is_yaml_file(path)] *)
Definition is_yaml_file (p : path) : bool :=
  is_file fs p && has_yaml_suffix p.

(** What one entry of a directory adds to [files] in the loop of
    [collect_yaml_files]: a directory its own sorted collection, a YAML file
    its resolved path, anything else nothing. *)
Fixpoint collect_entry (entry : dir_entry) : list path :=
  match entry with
  | EntryDir _ children => sort_paths pl (flat_map collect_entry children)
  | EntryOther p => if is_yaml_file p then [resolve pl p] else []
  end.

(** [collect_yaml_files(directory)], on the entries of the directory. *)
Definition collect_yaml_files (entries : list dir_entry) : list path :=
  sort_paths pl (flat_map collect_entry entries).

(** The test shared by the candidate and by each probed extension: a
    directory is walked, a YAML file is taken alone, anything else falls
    through. *)
Definition targets_at (p : path) : option (list path) :=
  match lookup (fs_dirs fs) p with
  | Some entries => Some (collect_yaml_files entries)
  | None => if is_yaml_file p then Some [p] else None
  end.

Fixpoint probe_extensions (candidate : path) (exts : list string)
  : outcome (list path) :=
  match exts with
  | [] => Raise FileNotFoundError
  | ext :: rest =>
      match targets_at (path_of pl (candidate ++ ext)) with
      | Some targets => Return targets
      | None => probe_extensions candidate rest
      end
  end.

(** [resolve_include_targets(reference, base_path)] *)
Definition resolve_include_targets (reference : string) (base_path : path)
  : outcome (list path) :=
  let ref := strip reference in
  if is_empty ref then Raise ValueError
  else
    let candidate :=
      if is_absolute pl (path_of pl ref) then path_of pl ref
      else resolve pl (parent_join pl base_path (path_of pl ref)) in
    match targets_at candidate with
    | Some targets => Return targets
    | None =>
        if has_yaml_suffix candidate then Raise FileNotFoundError
        else probe_extensions candidate [".yaml"; ".yml"]
    end.

(** ** Profile loader *)

Definition visited_set := list path.

Definition in_visited (p : path) (visited : visited_set) : bool :=
  existsb (String.eqb p) visited.

(** [data.pop('includes', [])] on the loaded document. *)
Definition pop_includes (data : value) : outcome (value * dict) :=
  match data with
  | VDict d =>
      Return (match dict_get d "includes" with
              | Some v => v
              | None => VList []
              end, dict_pop d "includes")
  | VList _ => Raise TypeError
  | _ => Raise AttributeError
  end.

Fixpoint chars_of (s : string) : list value :=
  match s with
  | EmptyString => []
  | String c r => VStr (String c EmptyString) :: chars_of r
  end.

(** The items [for include_ref in includes] ranges over. *)
Definition iterate (includes : value) : outcome (list value) :=
  match includes with
  | VList items => Return items
  | VDict d => Return (map (fun k => VStr k) (dict_keys d))
  | VStr s => Return (chars_of s)
  | _ => Raise TypeError
  end.

(** A run of the loader: [None] when the recursion budget is exhausted,
    otherwise the outcome together with the visited set it leaves. *)
Definition loading := option (outcome (dict * visited_set)).

Section Loops.

Variable load : path -> visited_set -> loading.

(** [for include_path in targets: ...] *)
Fixpoint load_targets (targets : list path) (combined : dict)
    (visited : visited_set) : loading :=
  match targets with
  | [] => Some (Return (combined, visited))
  | include_path :: rest =>
      if negb (path_exists fs include_path) then Some (Raise FileNotFoundError)
      else
        match load include_path visited with
        | None => None
        | Some (Raise e) => Some (Raise e)
        | Some (Return (tree, visited')) =>
            match merge_configs combined (VDict tree) with
            | Raise e => Some (Raise e)
            | Return combined' => load_targets rest combined' visited'
            end
        end
  end.

(** [for include_ref in includes: ...] *)
Fixpoint load_includes (refs : list value) (base_path : path)
    (combined : dict) (visited : visited_set) : loading :=
  match refs with
  | [] => Some (Return (combined, visited))
  | VStr ref :: rest =>
      if is_empty (strip ref) then load_includes rest base_path combined visited
      else
        match resolve_include_targets ref base_path with
        | Raise e => Some (Raise e)
        | Return targets =>
            match load_targets targets combined visited with
            | Some (Return (combined', visited')) =>
                load_includes rest base_path combined' visited'
            | other => other
            end
        end
  | _ :: rest => load_includes rest base_path combined visited
  end.

End Loops.

(** [load_profile_tree(profile_path, visited)]; [fuel] bounds the depth of
    the recursion. *)
Fixpoint load_profile_tree (fuel : nat) (profile_path : path)
    (visited : visited_set) : loading :=
  match fuel with
  | O => None
  | S fuel' =>
      let resolved := resolve pl profile_path in
      if in_visited resolved visited then Some (Return ([], visited))
      else
        let visited := resolved :: visited in
        match open_and_parse fs resolved with
        | Raise e => Some (Raise e)
        | Return doc =>
            let data := if truthy doc then doc else VDict [] in
            match pop_includes data with
            | Raise e => Some (Raise e)
            | Return (inc, body) =>
                let includes := if truthy inc then inc else VList [] in
                match iterate includes with
                | Raise e => Some (Raise e)
                | Return refs =>
                    match load_includes (load_profile_tree fuel') refs resolved
                            [] visited with
                    | Some (Return (combined, visited')) =>
                        match merge_configs combined (VDict body) with
                        | Raise e => Some (Raise e)
                        | Return combined' => Some (Return (combined', visited'))
                        end
                    | other => other
                    end
                end
            end
        end
  end.

(** ** Profile set resolver *)

(** [resolve_profile_path(profile)] *)
Definition resolve_profile_path (profile : string) : outcome path :=
  let name := strip profile in
  if is_empty name then Raise ValueError
  else
    let name := if has_yaml_extension name then name else name ++ ".yaml" in
    Return (resolve pl (profiles_dir_join pl name)).

(** The [for profile in profiles] loop inside the [try] of [load_config]. *)
Fixpoint load_profiles (fuel : nat) (profiles : list string) (config : dict)
    (visited : visited_set) : loading :=
  match profiles with
  | [] => Some (Return (config, visited))
  | profile :: rest =>
      match resolve_profile_path profile with
      | Raise e => Some (Raise e)
      | Return profile_path =>
          if negb (path_exists fs profile_path) then Some (Raise FileNotFoundError)
          else
            match load_profile_tree fuel profile_path visited with
            | None => None
            | Some (Raise e) => Some (Raise e)
            | Some (Return (tree, visited')) =>
                match merge_configs config (VDict tree) with
                | Raise e => Some (Raise e)
                | Return config' => load_profiles fuel rest config' visited'
                end
            end
      end
  end.

(** [load_config()], with the profile list [resolve_profiles()] computed and
    the file system as [ensure_bundled_files()] left it.  The inner [option]
    is the sentinel: [None] for "no configuration". *)
Definition load_config (fuel : nat) (profiles : list string)
  : option (outcome (option dict)) :=
  match profiles with
  | [] => Some (Return None)
  | _ =>
      match load_profiles fuel profiles [] [] with
      | None => None
      | Some (Return (config, _)) => Some (Return (Some (normalize_directives config)))
      | Some (Raise FileNotFoundError) => Some (Return None)
      | Some (Raise YAMLError) => Some (Return None)
      | Some (Raise e) => Some (Raise e)
      end
  end.

End Engine.

(** ** Object identity: the merger on a heap

    [merge_configs] once more, on a store of mutable objects, so that
    sharing between the arguments and the result can be observed.  Lists
    and dictionaries live in the heap and are named by their address;
    [copy.deepcopy] allocates. *)

Module Aliasing.

Definition loc := nat.

Inductive ref_value : Type :=
| RNone
| RBool (b : bool)
| RInt (n : Z)
| RStr (s : string)
| RRef (l : loc).

Inductive object : Type :=
| ODict (entries : list (string * ref_value))
| OList (items : list ref_value).

Definition heap := list object.

Definition read (h : heap) (l : loc) : option object := nth_error h l.

Definition alloc (h : heap) (o : object) : heap * ref_value :=
  ((h ++ [o])%list, RRef (List.length h)).

Fixpoint write (h : heap) (l : loc) (o : object) : heap :=
  match h, l with
  | [], _ => []
  | _ :: rest, O => o :: rest
  | x :: rest, S l' => x :: write rest l' o
  end.

Definition entries := list (string * ref_value).

Fixpoint entries_get (d : entries) (k : string) : option ref_value :=
  match d with
  | [] => None
  | (k', v) :: rest => if String.eqb k' k then Some v else entries_get rest k
  end.

Fixpoint entries_set (d : entries) (k : string) (v : ref_value) : entries :=
  match d with
  | [] => [(k, v)]
  | (k', v') :: rest =>
      if String.eqb k' k then (k, v) :: rest
      else (k', v') :: entries_set rest k v
  end.

Fixpoint entries_pop (d : entries) (k : string) : entries :=
  match d with
  | [] => []
  | (k', v') :: rest =>
      if String.eqb k' k then entries_pop rest k
      else (k', v') :: entries_pop rest k
  end.

(** The tree seen from a value, down to a given depth (deeper objects show
    as [None]). *)
Fixpoint view (depth : nat) (h : heap) (v : ref_value) : value :=
  match v with
  | RNone => VNone
  | RBool b => VBool b
  | RInt n => VInt n
  | RStr s => VStr s
  | RRef l =>
      match depth with
      | O => VNone
      | S depth' =>
          match read h l with
          | Some (ODict d) =>
              VDict (map (fun kv => (fst kv, view depth' h (snd kv))) d)
          | Some (OList items) => VList (map (view depth' h) items)
          | None => VNone
          end
      end
  end.

(** A run on the heap: [None] when the recursion budget is exhausted,
    otherwise an outcome with the heap it leaves. *)
Definition run (A : Type) : Type := option (outcome (heap * A)).

Definition ret {A : Type} (h : heap) (a : A) : run A := Some (Return (h, a)).

Definition throw {A : Type} (e : exn) : run A := Some (Raise e).

Definition hbind {A B : Type} (m : run A) (k : heap -> A -> run B) : run B :=
  match m with
  | None => None
  | Some (Raise e) => Some (Raise e)
  | Some (Return (h, a)) => k h a
  end.

Section Copy.

(** The recursive call of [copy.deepcopy]. *)
Variable copy : heap -> ref_value -> run ref_value.

Fixpoint copy_items (h : heap) (items : list ref_value)
  : run (list ref_value) :=
  match items with
  | [] => ret h []
  | x :: rest =>
      hbind (copy h x) (fun h1 x' =>
      hbind (copy_items h1 rest) (fun h2 rest' => ret h2 (x' :: rest')))
  end.

Fixpoint copy_entries (h : heap) (d : entries) : run entries :=
  match d with
  | [] => ret h []
  | (k, x) :: rest =>
      hbind (copy h x) (fun h1 x' =>
      hbind (copy_entries h1 rest) (fun h2 rest' => ret h2 ((k, x') :: rest')))
  end.

(** The loop of [clean_directive_config]: alias fields are dropped, every
    other value is copied. *)
Fixpoint clean_entries (h : heap) (d : entries) (cleaned : entries)
  : run entries :=
  match d with
  | [] => ret h cleaned
  | (k, x) :: rest =>
      if is_alias_field k then clean_entries h rest cleaned
      else hbind (copy h x) (fun h1 x' =>
             clean_entries h1 rest (entries_set cleaned k x'))
  end.

End Copy.

(** [copy.deepcopy(v)] on values without sharing inside: every list and
    dictionary reached is allocated afresh. *)
Fixpoint deepcopy (fuel : nat) (h : heap) (v : ref_value) : run ref_value :=
  match v with
  | RRef l =>
      match fuel with
      | O => None
      | S fuel' =>
          match read h l with
          | Some (OList items) =>
              hbind (copy_items (deepcopy fuel') h items) (fun h1 items' =>
                let (h2, r) := alloc h1 (OList items') in ret h2 r)
          | Some (ODict d) =>
              hbind (copy_entries (deepcopy fuel') h d) (fun h1 d' =>
                let (h2, r) := alloc h1 (ODict d') in ret h2 r)
          | None => None
          end
      end
  | _ => ret h v
  end.

(** [clean_directive_config(directive)] *)
Definition clean_directive_config (fuel : nat) (h : heap) (body : entries)
  : run ref_value :=
  hbind (clean_entries (deepcopy fuel) h body []) (fun h1 cleaned =>
    let (h2, r) := alloc h1 (ODict cleaned) in ret h2 r).

(** [target.pop(k, None)] *)
Definition obj_pop (h : heap) (target : ref_value) (k : string) : run unit :=
  match target with
  | RRef l =>
      match read h l with
      | Some (ODict d) => ret (write h l (ODict (entries_pop d k))) tt
      | Some (OList _) => throw TypeError
      | None => None
      end
  | _ => throw AttributeError
  end.

(** [target[k] = v] *)
Definition obj_setitem (h : heap) (target : ref_value) (k : string)
    (v : ref_value) : run unit :=
  match target with
  | RRef l =>
      match read h l with
      | Some (ODict d) => ret (write h l (ODict (entries_set d k v))) tt
      | Some (OList _) => throw TypeError
      | None => None
      end
  | _ => throw TypeError
  end.

Definition as_dict (h : heap) (v : ref_value) : option entries :=
  match v with
  | RRef l => match read h l with Some (ODict d) => Some d | _ => None end
  | _ => None
  end.

Fixpoint pop_all (h : heap) (directives : ref_value) (keys : list string)
  : run unit :=
  match keys with
  | [] => ret h tt
  | k :: rest =>
      hbind (obj_pop h directives k) (fun h1 _ => pop_all h1 directives rest)
  end.

(** [for actual_key in keys: directives[actual_key] = directive] *)
Fixpoint assign_all (h : heap) (directives : ref_value) (keys : list string)
    (directive : ref_value) : run unit :=
  match keys with
  | [] => ret h tt
  | k :: rest =>
      hbind (obj_setitem h directives k directive) (fun h1 _ =>
        assign_all h1 directives rest directive)
  end.

(** [for actual_key in keys: directives[actual_key] = copy.deepcopy(cleaned)] *)
Fixpoint assign_copies (fuel : nat) (h : heap) (directives : ref_value)
    (keys : list string) (cleaned : ref_value) : run unit :=
  match keys with
  | [] => ret h tt
  | k :: rest =>
      hbind (deepcopy fuel h cleaned) (fun h1 c =>
      hbind (obj_setitem h1 directives k c) (fun h2 _ =>
        assign_copies fuel h2 directives rest cleaned))
  end.

(** The body of [for flag, directive in directives_overlay.items()]. *)
Definition merge_directive (fuel : nat) (h : heap) (directives : ref_value)
    (flag : string) (directive : ref_value) : run unit :=
  let keys := expand_flag_keys flag (view 2 h directive) in
  match directive with
  | RNone =>
      hbind (obj_pop h directives flag) (fun h1 _ => pop_all h1 directives keys)
  | _ =>
      match as_dict h directive with
      | Some body =>
          hbind (clean_directive_config fuel h body) (fun h1 cleaned =>
            assign_copies fuel h1 directives keys cleaned)
      | None => assign_all h directives keys directive
      end
  end.

Fixpoint merge_directives (fuel : nat) (h : heap) (directives : ref_value)
    (items : entries) : run unit :=
  match items with
  | [] => ret h tt
  | (flag, directive) :: rest =>
      hbind (merge_directive fuel h directives flag directive) (fun h1 _ =>
        merge_directives fuel h1 directives rest)
  end.

(** [result.setdefault('directives', {})] on the dictionary at [lr]. *)
Definition setdefault_directives (h : heap) (lr : loc) (d : entries)
  : heap * ref_value :=
  match entries_get d "directives" with
  | Some v => (h, v)
  | None =>
      let (h1, fresh) := alloc h (ODict []) in
      (write h1 lr (ODict (entries_set d "directives" fresh)), fresh)
  end.

Section Generic.

(** The recursive call of [merge_configs]. *)
Variable merge : heap -> ref_value -> ref_value -> run ref_value.
Variable copy : heap -> ref_value -> run ref_value.

(** [result.get(key) if isinstance(result.get(key), dict) else {}] *)
Definition existing_mapping (h : heap) (result : ref_value) (key : string)
  : heap * ref_value :=
  match as_dict h result with
  | Some d =>
      match entries_get d key with
      | Some v => match as_dict h v with
                  | Some _ => (h, v)
                  | None => alloc h (ODict [])
                  end
      | None => alloc h (ODict [])
      end
  | None => alloc h (ODict [])
  end.

Fixpoint generic_merge (h : heap) (items : entries) (result : ref_value)
  : run unit :=
  match items with
  | [] => ret h tt
  | (key, v) :: rest =>
      if String.eqb key "directives" then generic_merge h rest result
      else
        match v with
        | RNone =>
            hbind (obj_pop h result key) (fun h1 _ =>
              generic_merge h1 rest result)
        | _ =>
            match as_dict h v with
            | Some _ =>
                let (h1, existing) := existing_mapping h result key in
                hbind (merge h1 existing v) (fun h2 merged =>
                hbind (obj_setitem h2 result key merged) (fun h3 _ =>
                  generic_merge h3 rest result))
            | None =>
                hbind (copy h v) (fun h1 c =>
                hbind (obj_setitem h1 result key c) (fun h2 _ =>
                  generic_merge h2 rest result))
            end
        end
  end.

End Generic.

(** [merge_configs(base, overlay)]; [base] refers to a dictionary. *)
Fixpoint merge_configs (fuel : nat) (h : heap) (base overlay : ref_value)
  : run ref_value :=
  match fuel with
  | O => None
  | S fuel' =>
      hbind (deepcopy fuel' h base) (fun h1 result =>
        match as_dict h1 overlay with
        | None => ret h1 result
        | Some ov =>
            hbind
              (match entries_get ov "directives" with
               | Some dref =>
                   match as_dict h1 dref with
                   | Some directives_overlay =>
                       match result, as_dict h1 result with
                       | RRef lr, Some d =>
                           let (h2, directives) :=
                             setdefault_directives h1 lr d in
                           merge_directives fuel' h2 directives
                             directives_overlay
                       | _, _ => throw AttributeError
                       end
                   | None => ret h1 tt
                   end
               | None => ret h1 tt
               end)
              (fun h3 _ =>
                 hbind (generic_merge (merge_configs fuel') (deepcopy fuel')
                          h3 ov result)
                       (fun h4 _ => ret h4 result))
        end)
  end.

(** An overlay whose directive is a sequence, and an empty base:
    address 0 is the overlay, 1 its [directives], 2 the list bound to
    [--x], 3 the base. *)
Definition shared_heap : heap :=
  [ODict [("directives", RRef 1)];
   ODict [("--x", RRef 2)];
   OList [RStr "first"; RStr "second"];
   ODict []].

(** The same list under a generic key. *)
Definition generic_heap : heap :=
  [ODict [("order", RRef 1)];
   OList [RStr "first"; RStr "second"];
   ODict []].

End Aliasing.

(** ** Auxiliary notions used in the statements *)

(** The pure effect of the directive loops on a [directives] object that
    is a mapping. *)
Definition pop_keys (d : dict) (keys : list string) : dict :=
  fold_left dict_pop keys d.

Definition merge_directive_dict (d : dict) (flag : string) (directive : value)
  : dict :=
  let keys := expand_flag_keys flag directive in
  match directive with
  | VNone => pop_keys (dict_pop d flag) keys
  | VDict body => assign_keys d keys (VDict (clean_directive_config body))
  | _ => assign_keys d keys directive
  end.

Definition merge_directives_dict (d : dict) (items : dict) : dict :=
  fold_left (fun acc kv => merge_directive_dict acc (fst kv) (snd kv)) items d.

Definition mem_key (k : string) (keys : list string) : bool :=
  existsb (String.eqb k) keys.

(** The [directives] entry of a mapping is absent or itself a mapping. *)
Definition directives_ok (d : dict) : Prop :=
  match dict_get d "directives" with
  | Some (VDict _) | None => True
  | Some _ => False
  end.

(** A base every merge succeeds on: [directives], where present, is a
    mapping, here and in every nested mapping the generic merge can
    descend into. *)
Inductive mergeable : dict -> Prop :=
| mergeable_intro (d : dict) :
    directives_ok d ->
    (forall k sub, k <> "directives" ->
                   dict_get d k = Some (VDict sub) -> mergeable sub) ->
    mergeable d.

(** The mapping the directive loop of [merge_configs] starts from. *)
Definition base_directives (base : dict) : dict :=
  match dict_get base "directives" with
  | Some (VDict d) => d
  | _ => []
  end.

(** Induction over values that reaches inside lists and mappings. *)
Section ValueInduction.

Variable P : value -> Prop.
Hypothesis HNone : P VNone.
Hypothesis HBool : forall b, P (VBool b).
Hypothesis HInt : forall n, P (VInt n).
Hypothesis HStr : forall s, P (VStr s).
Hypothesis HList : forall items, Forall P items -> P (VList items).
Hypothesis HDict :
  forall entries, Forall (fun kv => P (snd kv)) entries -> P (VDict entries).

Fixpoint value_nested_ind (v : value) : P v :=
  match v with
  | VNone => HNone
  | VBool b => HBool b
  | VInt n => HInt n
  | VStr s => HStr s
  | VList items =>
      HList items
        ((fix go (l : list value) : Forall P l :=
            match l with
            | [] => Forall_nil _
            | x :: r => Forall_cons x (value_nested_ind x) (go r)
            end) items)
  | VDict entries =>
      HDict entries
        ((fix go (l : list (string * value))
            : Forall (fun kv => P (snd kv)) l :=
            match l with
            | [] => Forall_nil _
            | kv :: r => Forall_cons kv (value_nested_ind (snd kv)) (go r)
            end) entries)
  end.

End ValueInduction.

(** ** Canonical flag tokens *)

Fixpoint no_separator (s : string) : bool :=
  match s with
  | EmptyString => true
  | String c r => negb (is_separator c) && no_separator r
  end.

(** A canonical flag token: two dashes, then at least one more character,
    with no comma, pipe or whitespace anywhere. *)
Definition is_canonical (s : string) : bool :=
  match s with
  | String c (String c1 (String _ _)) =>
      Ascii.eqb c "-" && Ascii.eqb c1 "-" && no_separator s
  | _ => false
  end.

(** The keys a raw key yields on its own, whatever the directive. *)
Definition raw_keys (raw_key : string) : list string :=
  expand_flag_keys raw_key VNone.

(** The trimmed, non-empty strings of one alias field of a directive body. *)
Definition alias_key (body : dict) (field k : string) : Prop :=
  exists items a,
    dict_get body field = Some (VList items) /\
    In (VStr a) items /\ k = strip a /\ is_empty k = false.

(** The result of the expander on a mapping directive, split by where a
    key comes from: the expander's keys for the raw key alone, or an alias
    field.  A proof device; what a compound raw key should yield is said
    by [compound_key] below. *)
Definition fan_out_key (raw_key : string) (body : dict) (k : string) : Prop :=
  In k (raw_keys raw_key) \/
  alias_key body "aliases" k \/ alias_key body "variations" k.

(** A directive body without its alias metadata. *)
Definition without_alias_fields (body : dict) : dict :=
  filter (fun kv => negb (is_alias_field (fst kv))) body.

(** Where a key of an expanded entry comes from. *)
Definition key_origin (raw_key : string) (directive : value) (k : string)
  : Prop :=
  (In k (findall_flags raw_key) /\ is_canonical k = true)
  \/ (findall_flags raw_key = [] /\
      exists part, In part (split_comma_pipe raw_key) /\
                   k = strip part /\ is_empty k = false)
  \/ (exists body, directive = VDict body /\
        (alias_key body "aliases" k \/ alias_key body "variations" k)).

(** ** A concrete path library and concrete file systems *)

(** All files live in one directory and are named by their file name. *)
Definition flat_pathlib : pathlib := {|
  path_of := fun s => s;
  resolve := fun p => p;
  is_absolute := fun _ => false;
  parent_join := fun _ p => p;
  suffix_lower := fun p =>
    if ends_with (lower p) ".yaml" then ".yaml"
    else if ends_with (lower p) ".yml" then ".yml" else "";
  sort_paths := fun ps => ps;
  profiles_dir_join := fun name => name
|}.

Definition yaml_files (files : list (path * parsed)) : filesystem :=
  {| fs_files := files; fs_dirs := [] |}.

(** One profile whose directive keys are not flag tokens. *)
Definition fs_loose_keys : filesystem :=
  yaml_files
    [("claude.yaml",
      Document (VDict [("directives",
                        VDict [("analyze", VInt 1);
                               ("--x", VDict [("aliases",
                                               VList [VStr "fast mode"])])])]))].

(** The files of the file system not yet in the visited set: the measure
    that bounds the depth of [load_profile_tree]. *)
Definition unvisited (fs : filesystem) (visited : visited_set) : nat :=
  List.length
    (filter (fun p => negb (in_visited p visited)) (map fst (fs_files fs))).

(** Two files that include each other. *)
Definition fs_cycle : filesystem :=
  yaml_files
    [("a.yaml", Document (VDict [("includes", VList [VStr "b.yaml"]);
                                 ("from_a", VInt 1)]));
     ("b.yaml", Document (VDict [("includes", VList [VStr "a.yaml"]);
                                 ("from_b", VInt 2)]))].

(** A run of the loader answers when the recursion budget sufficed, and
    then it has only grown the visited set. *)
Definition answers (run : loading) (v : visited_set) : Prop :=
  exists r, run = Some r /\
            forall tree v', r = Return (tree, v') -> incl v v'.

(** The document [load_profile_tree] works on: [yaml.safe_load(f) or {}]. *)
Definition document_or_empty (doc : value) : value :=
  if truthy doc then doc else VDict [].

(** What a file's own entry for a key amounts to once merged: a null
    deletes, a mapping is cleaned, a scalar is kept. *)
Definition own_value (directive : value) : option value :=
  match directive with
  | VNone => None
  | VDict body => Some (VDict (clean_directive_config body))
  | v => Some v
  end.

(** A file whose own directive competes with those of its two includes. *)
Definition fs_precedence : filesystem :=
  yaml_files
    [("a.yaml",
      Document (VDict [("includes", VList [VStr "b.yaml"; VStr "c.yaml"]);
                       ("directives",
                        VDict [("--x", VDict [("who", VStr "a")])])]));
     ("b.yaml",
      Document (VDict [("directives",
                        VDict [("--x", VDict [("who", VStr "b")]);
                               ("--y", VDict [("who", VStr "b")])])]));
     ("c.yaml",
      Document (VDict [("directives",
                        VDict [("--x", VDict [("who", VStr "c")])])]))].

(** The include references a document lists: the items the loop
    [for include_ref in includes] ranges over. *)
Definition include_refs (d : dict) : list value :=
  let inc := match dict_get d "includes" with
             | Some v => v
             | None => VList []
             end in
  match iterate (if truthy inc then inc else VList []) with
  | Return refs => refs
  | Raise _ => []
  end.

(** A profile listing blank include references next to ordinary content. *)
Definition fs_blank_include : filesystem :=
  yaml_files
    [("claude.yaml",
      Document (VDict [("includes", VList [VStr "   "; VStr ""]);
                       ("mode", VStr "on")]))].

(** Profiles whose document parses but is no mapping, and one that parses
    to nothing. *)
Definition fs_list_document : filesystem :=
  yaml_files [("claude.yaml", Document (VList [VStr "--x"]))].

Definition fs_string_document : filesystem :=
  yaml_files [("claude.yaml", Document (VStr "just text"))].

Definition fs_empty_document : filesystem :=
  yaml_files [("claude.yaml", Document VNone)].

(** The include references of a parsed document. *)
Definition doc_include_refs (doc : value) : list value :=
  match document_or_empty doc with
  | VDict d => include_refs d
  | _ => []
  end.

(** A visited file is in order, relative to a visited set, when it parsed
    and each of its non-blank include references resolved to existing
    targets that were all loaded in turn. *)
Definition chain_ok (pl : pathlib) (fs : filesystem) (q : path)
    (visited : visited_set) : Prop :=
  exists doc,
    open_and_parse fs q = Return doc /\
    forall ref,
      In (VStr ref) (doc_include_refs doc) ->
      is_empty (strip ref) = false ->
      exists targets,
        resolve_include_targets pl fs ref q = Return targets /\
        forall t, In t targets ->
                  path_exists fs t = true /\ In (resolve pl t) visited.

(** What a successful run of a loader guarantees about the visited set it
    returns: it extends the one it was given, and every file added is in
    order. *)
Definition closed_run (pl : pathlib) (fs : filesystem)
    (v v' : visited_set) : Prop :=
  incl v v' /\ forall q, In q v' -> In q v \/ chain_ok pl fs q v'.

(** Every named profile has an existing file that was loaded. *)
Definition profiles_loaded (pl : pathlib) (fs : filesystem)
    (profiles : list string) (visited : visited_set) : Prop :=
  forall profile, In profile profiles ->
    exists profile_path,
      resolve_profile_path pl profile = Return profile_path /\
      path_exists fs profile_path = true /\
      In (resolve pl profile_path) visited.

(** ** Structural equality of trees *)

(** Equality as Python compares values: mappings are equal when they bind
    the same keys to equal values, in whatever order. *)
Inductive same_value : value -> value -> Prop :=
| same_refl (v : value) : same_value v v
| same_dict (d1 d2 : dict) :
    (forall k,
       (dict_get d1 k = None /\ dict_get d2 k = None) \/
       (exists v1 v2, dict_get d1 k = Some v1 /\ dict_get d2 k = Some v2 /\
                      same_value v1 v2)) ->
    same_value (VDict d1) (VDict d2).

(** A [directives] map already in expanded form: distinct keys, each
    expanding to itself alone, no null directive, no alias metadata left in
    a mapping directive. *)
Definition expanded_directives (dv : dict) : Prop :=
  NoDup (dict_keys dv) /\
  forall raw directive, In (raw, directive) dv ->
    directive <> VNone /\
    expand_flag_keys raw directive = [raw] /\
    forall body, directive = VDict body -> clean_directive_config body = body.

(** A tree an overlay of which onto the empty tree gives the tree back:
    distinct keys, no null outside [directives], [directives] expanded,
    and the same in every nested mapping. *)
Inductive plain : dict -> Prop :=
| plain_intro (d : dict) :
    NoDup (dict_keys d) ->
    (forall v, In ("directives", v) d ->
               exists dv, v = VDict dv /\ expanded_directives dv) ->
    (forall k v, In (k, v) d -> k <> "directives" ->
                 v <> VNone /\ forall sub, v = VDict sub -> plain sub) ->
    plain d.

(** A tree with a directive, a nested section and a sequence. *)
Definition plain_tree : dict :=
  [("mode", VStr "on");
   ("directives", VDict [("--x", VDict [("who", VStr "a")]); ("--y", VInt 1)]);
   ("hook_messages", VDict [("order", VList [VInt 1; VInt 2])])].

(** ** Compound raw keys *)

Fixpoint all_separators (s : string) : bool :=
  match s with
  | EmptyString => true
  | String c r => is_separator c && all_separators r
  end.

(** A compound raw key, written out: canonical flag tokens set apart by
    commas, pipes or whitespace, with optional padding before each token
    and after the last.  [compound_key raw tokens] reads: [raw] spells the
    tokens [tokens], in this order. *)
Inductive compound_key : string -> list string -> Prop :=
| compound_none (pad : string) :
    all_separators pad = true ->
    compound_key pad []
| compound_last (pad t : string) :
    all_separators pad = true ->
    is_canonical t = true ->
    compound_key (pad ++ t) [t]
| compound_more (pad t : string) (c : ascii) (rest : string)
    (tokens : list string) :
    all_separators pad = true ->
    is_canonical t = true ->
    is_separator c = true ->
    compound_key rest tokens ->
    compound_key (pad ++ t ++ String c rest) (t :: tokens).

(** ** Further notions: per-key contracts of the merger *)

(** What the generic half of a merge leaves under a key other than
    [directives], given what the base and the overlay bind there. *)
Definition generic_outcome (base : dict) (k : string) (overlay_value : option value)
    (result_value : option value) : Prop :=
  match overlay_value with
  | None => result_value = dict_get base k
  | Some VNone => result_value = None
  | Some (VDict sub) =>
      exists merged,
        merge_configs (existing_mapping base k) (VDict sub) = Return merged /\
        result_value = Some (VDict merged)
  | Some v => result_value = Some v
  end.

(** No leading whitespace. *)
Definition head_ok (s : string) : bool :=
  match s with
  | EmptyString => true
  | String c _ => negb (is_space c)
  end.

(** A mapping directive carries no alias metadata. *)
Definition alias_free (v : value) : Prop :=
  forall body, v = VDict body ->
    dict_get body "aliases" = None /\ dict_get body "variations" = None.

(** ** Active profiles *)

(** The three environment variables [resolve_profiles] reads, each unset
    ([None]) or set to a string. *)
Record environment : Type := {
  SUPERFLAG_PROFILES : option string;
  SUPERFLAG_PROFILE : option string;
  SUPERFLAG_PLATFORM : option string
}.

(** [x or y] on what [os.environ.get] returns. *)
Definition or_else (x : option string) (y : string) : string :=
  match x with
  | Some s => if is_empty s then y else s
  | None => y
  end.

Definition is_env_separator (c : ascii) : bool :=
  Ascii.eqb c ";" || Ascii.eqb c "," || is_space c.

Definition starts_with_separator (s : string) : bool :=
  match s with
  | EmptyString => false
  | String c _ => is_env_separator c
  end.

(** [re.split(r'[;,\s]+', s)]: a run of separators splits once. *)
Fixpoint split_env (s : string) : list string :=
  match s with
  | EmptyString => [EmptyString]
  | String c r =>
      if is_env_separator c then
        if starts_with_separator r then split_env r
        else EmptyString :: split_env r
      else match split_env r with
           | h :: t => String c h :: t
           | [] => [String c EmptyString]
           end
  end.

(** [s.replace(old, '')] for a non-empty [old]: occurrences are removed
    from left to right, [skip] counting the characters of the occurrence
    still to drop. *)
Fixpoint remove_from (old : string) (skip : nat) (s : string) : string :=
  match s with
  | EmptyString => EmptyString
  | String c r =>
      match skip with
      | S n => remove_from old n r
      | O =>
          if String.prefix old s
          then remove_from old (String.length old - 1) r
          else String c (remove_from old 0 r)
      end
  end.

Definition remove_all (old s : string) : string := remove_from old 0 s.

(** The comprehension [[p.strip() for p in parts if p.strip()]]. *)
Fixpoint stripped_parts (parts : list string) : list string :=
  match parts with
  | [] => []
  | p :: rest =>
      if is_empty (strip p) then stripped_parts rest
      else strip p :: stripped_parts rest
  end.

(** The loop over [profiles] of [resolve_profiles]; [seen] holds exactly
    the names of [normalized]. *)
Fixpoint normalize_profiles (profiles : list string) (normalized : list string)
  : list string :=
  match profiles with
  | [] => normalized
  | profile :: rest =>
      let name := strip (remove_all ".yml" (remove_all ".yaml" profile)) in
      normalize_profiles rest
        (if is_empty name then normalized else set_add name normalized)
  end.

Definition DEFAULT_PROFILE : string := "claude".

(** [resolve_profiles()] *)
Definition resolve_profiles (env : environment) : list string :=
  let env_value :=
    or_else (SUPERFLAG_PROFILES env)
      (or_else (SUPERFLAG_PROFILE env)
         (or_else (SUPERFLAG_PLATFORM env) "")) in
  match stripped_parts (split_env env_value) with
  | [] => [DEFAULT_PROFILE]
  | profiles =>
      match normalize_profiles profiles [] with
      | [] => [DEFAULT_PROFILE]
      | normalized => normalized
      end
  end.

(** ** Flag detection *)

(** [sub in s] on strings. *)
Fixpoint is_substring (sub s : string) : bool :=
  String.prefix sub s
  || match s with
     | EmptyString => false
     | String _ r => is_substring sub r
     end.

(** [list(dict.fromkeys(xs))]: first occurrences, in order. *)
Definition first_occurrences (xs : list string) : list string :=
  fold_left (fun seen x => set_add x seen) xs [].

(** [extract_valid_flags(user_input, valid_flags)] *)
Definition extract_valid_flags (user_input : string)
    (valid_flags : list string) : list string :=
  first_occurrences
    (filter (fun flag => is_substring flag user_input) valid_flags).

(** ** Directory walks *)

(** The entry, or some entry below it, is the non-directory [p]. *)
Fixpoint lists_file (p : path) (entry : dir_entry) : bool :=
  match entry with
  | EntryDir _ children => existsb (lists_file p) children
  | EntryOther q => String.eqb q p
  end.

(** Induction over directory entries that reaches below directories. *)
Section EntryInduction.

Variable P : dir_entry -> Prop.
Hypothesis HDir :
  forall p children, Forall P children -> P (EntryDir p children).
Hypothesis HOther : forall p, P (EntryOther p).

Fixpoint dir_entry_nested_ind (entry : dir_entry) : P entry :=
  match entry with
  | EntryDir p children =>
      HDir p children
        ((fix go (l : list dir_entry) : Forall P l :=
            match l with
            | [] => Forall_nil _
            | x :: r => Forall_cons x (dir_entry_nested_ind x) (go r)
            end) children)
  | EntryOther p => HOther p
  end.

End EntryInduction.

(** A directory with a nested directory, a YAML file at each level and a
    file of another kind. *)
Definition fs_directory : filesystem :=
  {| fs_files := [("claude.yaml", Document (VDict [("includes", VList [VStr "configs"])]));
                  ("configs/a.yaml", Document (VDict [("a", VInt 1)]));
                  ("configs/notes.txt", Document VNone);
                  ("configs/sub/b.yml", Document (VDict [("b", VInt 2)]))];
     fs_dirs := [("configs",
                  [EntryOther "configs/a.yaml";
                   EntryOther "configs/notes.txt";
                   EntryDir "configs/sub" [EntryOther "configs/sub/b.yml"]])] |}.

(** ** Guidance messages *)

(** Exceptions at the level of the hook: those of the engine, and whatever
    [str.format] raises on a template it cannot fill. *)
Inductive hook_exn : Type :=
| EngineError (e : exn)
| FormatError.

Inductive hook_outcome (A : Type) : Type :=
| HReturn (a : A)
| HRaise (e : hook_exn).
Arguments HReturn {A} a.
Arguments HRaise {A} e.

Definition hbind {A B : Type} (m : hook_outcome A) (f : A -> hook_outcome B)
  : hook_outcome B :=
  match m with
  | HReturn a => f a
  | HRaise e => HRaise e
  end.

Definition AUTO_FLAG : string := "--auto".
Definition RESET_FLAG : string := "--reset".

(** [m.get(k, default)]: only a mapping has [get]. *)
Definition py_get (m : value) (k : string) (default : value)
  : hook_outcome value :=
  match m with
  | VDict d => HReturn (match dict_get d k with Some v => v | None => default end)
  | _ => HRaise (EngineError AttributeError)
  end.

(** [', '.join(flags)] *)
Definition join_flags (flags : list string) : string :=
  String.concat ", " flags.

Section Messages.

(** [template.format(...)] on a string template, with its keyword
    arguments. *)
Variable format : string -> list (string * string) -> hook_outcome string.

Definition py_format (template : value) (kwargs : list (string * string))
  : hook_outcome value :=
  match template with
  | VStr s => hbind (format s kwargs) (fun r => HReturn (VStr r))
  | _ => HRaise (EngineError AttributeError)
  end.

(** [get_auto_message(has_other_flags, other_flags, hook_messages)] *)
Definition get_auto_message (has_other_flags : bool)
    (other_flags : list string) (hook_messages : value) : hook_outcome value :=
  if has_other_flags then
    hbind (py_get hook_messages "auto_with_context" (VDict [])) (fun config =>
    hbind (py_get config "message" (VStr "")) (fun template =>
      py_format template [("other_flags", join_flags other_flags)]))
  else
    hbind (py_get hook_messages "auto_authority" (VDict [])) (fun config =>
      py_get config "message" (VStr "")).

(** [set(other_flags) == {RESET_FLAG}] *)
Definition only_reset (other_flags : list string) : bool :=
  match other_flags with
  | [] => false
  | _ => forallb (String.eqb RESET_FLAG) other_flags
  end.

(** [get_other_flags_message(other_flags, hook_messages)] *)
Definition get_other_flags_message (other_flags : list string)
    (hook_messages : value) : hook_outcome value :=
  let section :=
    if only_reset other_flags then "reset_protocol"
    else if existsb (String.eqb RESET_FLAG) other_flags then "reset_with_others"
    else "standard_execution" in
  hbind (py_get hook_messages section (VDict [])) (fun config =>
  hbind (py_get config "message" (VStr "")) (fun message_template =>
    if truthy message_template then
      py_format message_template
        [("flag_list", join_flags other_flags);
         ("flags", join_flags other_flags)]
    else HReturn VNone)).

(** [generate_messages(flags, hook_messages)] *)
Definition generate_messages (flags : list string) (hook_messages : value)
  : hook_outcome (list value) :=
  match flags with
  | [] => HReturn []
  | _ =>
      if existsb (String.eqb AUTO_FLAG) flags then
        let other_flags :=
          filter (fun f => negb (String.eqb f AUTO_FLAG)) flags in
        hbind (get_auto_message
                 (match other_flags with [] => false | _ => true end)
                 other_flags hook_messages) (fun auto_message =>
          HReturn (if truthy auto_message then [auto_message] else []))
      else
        hbind (get_other_flags_message flags hook_messages) (fun other_message =>
          HReturn (if truthy other_message then [other_message] else []))
  end.

Variable pl : pathlib.
Variable fs : filesystem.

(** [directives.keys()] *)
Definition py_keys (m : value) : hook_outcome (list string) :=
  match m with
  | VDict d => HReturn (dict_keys d)
  | _ => HRaise (EngineError AttributeError)
  end.

(** [process_input(user_input)], on the profiles the environment names:
    [None] outside when the recursion budget of the loader is exhausted,
    [None] inside for the Python [None]; the valid flags are taken in the
    order of the [directives] map. *)
Definition process_input (fuel : nat) (profiles : list string)
    (user_input : string) : option (hook_outcome (option (list value))) :=
  match load_config pl fs fuel profiles with
  | None => None
  | Some (Raise e) => Some (HRaise (EngineError e))
  | Some (Return None) => Some (HReturn None)
  | Some (Return (Some [])) => Some (HReturn None)
  | Some (Return (Some config)) =>
      Some
        (hbind (py_get (VDict config) "directives" (VDict [])) (fun directives =>
         hbind (py_keys directives) (fun valid_flags =>
           match extract_valid_flags user_input valid_flags with
           | [] => HReturn None
           | flags =>
               hbind (py_get (VDict config) "hook_messages" (VDict []))
                 (fun hook_messages =>
               hbind (generate_messages flags hook_messages) (fun messages =>
                 HReturn (match messages with
                          | [] => None
                          | _ => Some messages
                          end)))
           end)))
  end.

End Messages.

(** A template filler for the examples: the template is returned as it
    is, whatever the arguments. *)
Definition format_verbatim (template : string)
    (kwargs : list (string * string)) : hook_outcome string :=
  HReturn template.

(** A profile with two directives and the message templates. *)
Definition fs_hook : filesystem :=
  yaml_files
    [("claude.yaml",
      Document
        (VDict [("directives",
                 VDict [("--auto", VDict [("brief", VStr "decide")]);
                        ("--reset", VDict [("brief", VStr "start over")])]);
                ("hook_messages",
                 VDict [("auto_authority",
                         VDict [("message", VStr "auto alone")]);
                        ("auto_with_context",
                         VDict [("message", VStr "auto with others")]);
                        ("reset_protocol",
                         VDict [("message", VStr "reset alone")])])]))].


(** * Properties *)

(** ** Dictionaries *)

Lemma dict_get_set_same (d : dict) (k : string) (v : value) :
  dict_get (dict_set d k v) k = Some v.
Proof.
  induction d as [|[k' v'] rest IH]; simpl.
  - now rewrite String.eqb_refl.
  - destruct (String.eqb k' k) eqn:E; simpl.
    + now rewrite String.eqb_refl.
    + now rewrite E.
Qed.

Lemma dict_get_set_other (d : dict) (k k' : string) (v : value) :
  k <> k' -> dict_get (dict_set d k v) k' = dict_get d k'.
Proof.
  intros Hne. induction d as [|[q w] rest IH]; simpl.
  - apply String.eqb_neq in Hne. now rewrite Hne.
  - destruct (String.eqb q k) eqn:E; simpl.
    + apply String.eqb_eq in E. subst q.
      apply String.eqb_neq in Hne. now rewrite Hne.
    + destruct (String.eqb q k'); [reflexivity | exact IH].
Qed.

Lemma dict_get_pop_same (d : dict) (k : string) :
  dict_get (dict_pop d k) k = None.
Proof.
  induction d as [|[q w] rest IH]; simpl; [reflexivity|].
  destruct (String.eqb q k) eqn:E; simpl; [exact IH|].
  now rewrite E.
Qed.

Lemma dict_get_pop_other (d : dict) (k k' : string) :
  k <> k' -> dict_get (dict_pop d k) k' = dict_get d k'.
Proof.
  intros Hne. induction d as [|[q w] rest IH]; simpl; [reflexivity|].
  destruct (String.eqb q k) eqn:E; simpl.
  - apply String.eqb_eq in E. subst q.
    apply String.eqb_neq in Hne. now rewrite Hne.
  - destruct (String.eqb q k'); [reflexivity | exact IH].
Qed.

Lemma mem_key_In (k : string) (keys : list string) :
  mem_key k keys = true <-> In k keys.
Proof.
  unfold mem_key. rewrite existsb_exists. split.
  - intros [x [Hin Heq]]. apply String.eqb_eq in Heq. now subst.
  - intros Hin. exists k. split; [assumption | apply String.eqb_refl].
Qed.

Lemma dict_get_pop_keys (keys : list string) (d : dict) (k : string) :
  dict_get (pop_keys d keys) k =
  if mem_key k keys then None else dict_get d k.
Proof.
  unfold pop_keys. revert d.
  induction keys as [|q rest IH]; intros d; simpl; [reflexivity|].
  rewrite IH. destruct (String.eqb k q) eqn:E; simpl.
  - apply String.eqb_eq in E. subst q.
    rewrite dict_get_pop_same. now destruct (mem_key k rest).
  - apply String.eqb_neq in E.
    rewrite dict_get_pop_other by congruence. reflexivity.
Qed.

Lemma dict_get_assign_keys (keys : list string) (d : dict) (v : value)
    (k : string) :
  dict_get (assign_keys d keys v) k =
  if mem_key k keys then Some v else dict_get d k.
Proof.
  revert d. induction keys as [|q rest IH]; intros d; simpl; [reflexivity|].
  rewrite IH. destruct (String.eqb k q) eqn:E; simpl.
  - apply String.eqb_eq in E. subst q.
    rewrite dict_get_set_same. now destruct (mem_key k rest).
  - apply String.eqb_neq in E.
    rewrite dict_get_set_other by congruence. reflexivity.
Qed.

(** ** The directive loops on a mapping never raise *)

Lemma pop_all_dict (keys : list string) (d : dict) :
  pop_all (VDict d) keys = Return (VDict (pop_keys d keys)).
Proof.
  revert d. induction keys as [|k rest IH]; intros d; simpl; [reflexivity|].
  apply IH.
Qed.

Lemma assign_all_dict (keys : list string) (d : dict) (v : value) :
  assign_all (VDict d) keys v = Return (VDict (assign_keys d keys v)).
Proof.
  revert d. induction keys as [|k rest IH]; intros d; simpl; [reflexivity|].
  apply IH.
Qed.

Lemma merge_directive_on_dict (d : dict) (flag : string) (directive : value) :
  merge_directive (VDict d) flag directive =
  Return (VDict (merge_directive_dict d flag directive)).
Proof.
  unfold merge_directive, merge_directive_dict.
  destruct directive; simpl; try apply assign_all_dict.
  apply pop_all_dict.
Qed.

Lemma merge_directives_on_dict (items : dict) (d : dict) :
  merge_directives (VDict d) items =
  Return (VDict (merge_directives_dict d items)).
Proof.
  revert d. induction items as [|[flag directive] rest IH]; intros d; simpl.
  - reflexivity.
  - rewrite merge_directive_on_dict. simpl. apply IH.
Qed.

(** ** Structure of [merge_configs] *)

Lemma dict_set_set (d : dict) (k : string) (a b : value) :
  dict_set (dict_set d k a) k b = dict_set d k b.
Proof.
  induction d as [|[q w] rest IH]; simpl.
  - now rewrite String.eqb_refl.
  - destruct (String.eqb q k) eqn:E; simpl.
    + now rewrite String.eqb_refl.
    + rewrite E. now rewrite IH.
Qed.

Lemma merge_configs_unfold (base : dict) (ov : dict) :
  merge_configs base (VDict ov) =
  (result <- merge_directives_section base (VDict ov) ;;
   generic_merge merge_configs ov result).
Proof. reflexivity. Qed.

Lemma directives_section_ok (base ov dov : dict) :
  directives_ok base ->
  dict_get ov "directives" = Some (VDict dov) ->
  merge_directives_section base (VDict ov) =
  Return (dict_set base "directives"
            (VDict (merge_directives_dict (base_directives base) dov))).
Proof.
  intros Hok Hov. unfold merge_directives_section. rewrite Hov.
  unfold setdefault_directives, base_directives, directives_ok in *.
  destruct (dict_get base "directives") as [v|] eqn:E.
  - destruct v; try contradiction.
    rewrite merge_directives_on_dict. reflexivity.
  - rewrite merge_directives_on_dict. simpl. now rewrite dict_set_set.
Qed.

Lemma directives_section_skip (base ov : dict) :
  (forall dov, dict_get ov "directives" <> Some (VDict dov)) ->
  merge_directives_section base (VDict ov) = Return base.
Proof.
  intros H. unfold merge_directives_section.
  destruct (dict_get ov "directives") as [v|]; [|reflexivity].
  destruct v; try reflexivity. now elim (H entries).
Qed.

(** The generic loop never touches the [directives] entry. *)
Lemma generic_merge_keeps_directives
    (merge : dict -> value -> outcome dict) (items : dict) :
  forall result r,
    generic_merge merge items result = Return r ->
    dict_get r "directives" = dict_get result "directives".
Proof.
  induction items as [|[key v] rest IH]; intros result r H; simpl in H.
  - now inversion H.
  - destruct (String.eqb key "directives") eqn:E; [now apply IH|].
    apply String.eqb_neq in E.
    destruct v; try (apply IH in H; rewrite H;
                     first [ now apply dict_get_set_other
                           | now apply dict_get_pop_other ]).
    destruct (merge (existing_mapping result key) (VDict entries)) as [m|e];
      simpl in H; [|discriminate].
    apply IH in H. rewrite H. now apply dict_get_set_other.
Qed.

(** ** Mergeable bases: [merge_configs] returns, and returns a mergeable tree *)

Lemma mergeable_nil : mergeable [].
Proof. constructor; [exact I | intros k sub _ H; discriminate]. Qed.

Lemma mergeable_pop (d : dict) (k : string) :
  k <> "directives" -> mergeable d -> mergeable (dict_pop d k).
Proof.
  intros Hk [d' Hok Hsub]. constructor.
  - unfold directives_ok in *. now rewrite dict_get_pop_other.
  - intros q sub Hq Hget. destruct (string_dec k q) as [->|Hne].
    + rewrite dict_get_pop_same in Hget. discriminate.
    + rewrite dict_get_pop_other in Hget by assumption. eauto.
Qed.

Lemma mergeable_set (d : dict) (k : string) (v : value) :
  k <> "directives" ->
  (forall sub, v = VDict sub -> mergeable sub) ->
  mergeable d -> mergeable (dict_set d k v).
Proof.
  intros Hk Hv [d' Hok Hsub]. constructor.
  - unfold directives_ok in *. now rewrite dict_get_set_other.
  - intros q sub Hq Hget. destruct (string_dec k q) as [->|Hne].
    + rewrite dict_get_set_same in Hget. inversion Hget. now apply Hv.
    + rewrite dict_get_set_other in Hget by assumption. eauto.
Qed.

Lemma mergeable_set_directives (d dv : dict) :
  mergeable d -> mergeable (dict_set d "directives" (VDict dv)).
Proof.
  intros [d' Hok Hsub]. constructor.
  - unfold directives_ok. now rewrite dict_get_set_same.
  - intros q sub Hq Hget.
    rewrite dict_get_set_other in Hget by congruence. eauto.
Qed.

Lemma mergeable_existing (d : dict) (k : string) :
  k <> "directives" -> mergeable d -> mergeable (existing_mapping d k).
Proof.
  intros Hk [d' Hok Hsub]. unfold existing_mapping.
  destruct (dict_get d' k) as [v|] eqn:E; [|apply mergeable_nil].
  destruct v; try apply mergeable_nil. eauto.
Qed.

Lemma mergeable_directives_ok (d : dict) : mergeable d -> directives_ok d.
Proof. now intros [d' Hok _]. Qed.

Lemma directives_section_mergeable (base : dict) (overlay : value) :
  mergeable base ->
  exists r, merge_directives_section base overlay = Return r /\ mergeable r.
Proof.
  intros Hm. destruct overlay as [| | | | |ov];
    try (exists base; split; [reflexivity | assumption]).
  destruct (dict_get ov "directives") as [v|] eqn:E.
  - destruct v as [| | | | |dov];
      try (exists base; split; [|assumption];
           unfold merge_directives_section; now rewrite E).
    rewrite (directives_section_ok base ov dov)
      by (auto using mergeable_directives_ok).
    eexists. split; [reflexivity|]. now apply mergeable_set_directives.
  - exists base. split; [|assumption].
    unfold merge_directives_section. now rewrite E.
Qed.

Lemma generic_merge_mergeable
    (merge : dict -> value -> outcome dict) (items : dict) :
  Forall (fun kv => forall base, mergeable base ->
            exists r, merge base (snd kv) = Return r /\ mergeable r) items ->
  forall result, mergeable result ->
    exists r, generic_merge merge items result = Return r /\ mergeable r.
Proof.
  induction 1 as [|[key v] rest Hhead _ IH]; intros result Hm; simpl.
  - eauto.
  - destruct (String.eqb key "directives") eqn:E; [now apply IH|].
    apply String.eqb_neq in E. simpl in Hhead.
    destruct v;
      try (apply IH; apply mergeable_set; [assumption | discriminate | assumption]).
    + apply IH. now apply mergeable_pop.
    + destruct (Hhead (existing_mapping result key)) as [m [Hm1 Hm2]].
      { now apply mergeable_existing. }
      rewrite Hm1. simpl. apply IH. apply mergeable_set; try assumption.
      intros sub Hsub. inversion Hsub. now subst.
Qed.

Lemma merge_configs_mergeable (overlay : value) :
  forall base, mergeable base ->
    exists r, merge_configs base overlay = Return r /\ mergeable r.
Proof.
  induction overlay as [| | | |items _|entries IH] using value_nested_ind;
    intros base Hm; try (exists base; split; [reflexivity | assumption]).
  rewrite merge_configs_unfold.
  destruct (directives_section_mergeable base (VDict entries) Hm)
    as [r1 [H1 Hm1]].
  rewrite H1. simpl. now apply generic_merge_mergeable.
Qed.

(** ** The directive loop, entry by entry *)

Lemma mem_key_false (k : string) (keys : list string) :
  ~ In k keys -> mem_key k keys = false.
Proof.
  intros H. destruct (mem_key k keys) eqn:E; [|reflexivity].
  apply mem_key_In in E. contradiction.
Qed.

(** An entry whose keys do not include [k] (and which, when it is a
    deletion, does not name [k] as its raw key) leaves [k] alone. *)
Lemma merge_directive_dict_other (d : dict) (flag : string) (directive : value)
    (k : string) :
  ~ In k (expand_flag_keys flag directive) ->
  (directive = VNone -> k <> flag) ->
  dict_get (merge_directive_dict d flag directive) k = dict_get d k.
Proof.
  intros Hk Hflag. unfold merge_directive_dict.
  destruct directive;
    try (rewrite dict_get_assign_keys, mem_key_false by assumption; reflexivity).
  rewrite dict_get_pop_keys, mem_key_false by assumption.
  apply dict_get_pop_other. intros ->. now apply Hflag.
Qed.

(** An absent key stays absent unless a non-null entry assigns it. *)
Lemma merge_directive_dict_absent (d : dict) (flag : string) (directive : value)
    (k : string) :
  dict_get d k = None ->
  (directive <> VNone -> ~ In k (expand_flag_keys flag directive)) ->
  dict_get (merge_directive_dict d flag directive) k = None.
Proof.
  intros Habs Hk. unfold merge_directive_dict.
  destruct directive;
    try (rewrite dict_get_assign_keys, mem_key_false
           by (apply Hk; discriminate); assumption).
  rewrite dict_get_pop_keys.
  destruct (mem_key k (expand_flag_keys flag VNone)); [reflexivity|].
  destruct (string_dec flag k) as [->|Hne].
  - apply dict_get_pop_same.
  - now rewrite dict_get_pop_other.
Qed.

Lemma merge_directives_dict_app (d : dict) (pre post : dict) :
  merge_directives_dict d (pre ++ post)%list =
  merge_directives_dict (merge_directives_dict d pre) post.
Proof. unfold merge_directives_dict. apply fold_left_app. Qed.

Lemma merge_directives_dict_cons (d : dict) (flag : string) (directive : value)
    (post : dict) :
  merge_directives_dict d ((flag, directive) :: post) =
  merge_directives_dict (merge_directive_dict d flag directive) post.
Proof. reflexivity. Qed.

Lemma merge_directives_dict_absent (post : dict) (k : string) :
  (forall flag directive, In (flag, directive) post -> directive <> VNone ->
     ~ In k (expand_flag_keys flag directive)) ->
  forall d, dict_get d k = None ->
    dict_get (merge_directives_dict d post) k = None.
Proof.
  induction post as [|[flag directive] rest IH]; intros Hpost d Habs.
  - exact Habs.
  - rewrite merge_directives_dict_cons. apply IH.
    + intros f dv Hin. apply Hpost. now right.
    + apply merge_directive_dict_absent; [assumption|].
      apply Hpost. now left.
Qed.

Lemma merge_directives_dict_other (post : dict) (k : string) :
  (forall flag directive, In (flag, directive) post ->
     ~ In k (expand_flag_keys flag directive) /\
     (directive = VNone -> k <> flag)) ->
  forall d, dict_get (merge_directives_dict d post) k = dict_get d k.
Proof.
  induction post as [|[flag directive] rest IH]; intros Hpost d.
  - reflexivity.
  - rewrite merge_directives_dict_cons, IH.
    + apply merge_directive_dict_other; apply (Hpost flag directive); now left.
    + intros f dv Hin. apply Hpost. now right.
Qed.

(** The deletion step itself. *)
Lemma delete_step_removes (d : dict) (raw k : string) :
  k = raw \/ In k (expand_flag_keys raw VNone) ->
  dict_get (merge_directive_dict d raw VNone) k = None.
Proof.
  intros Hk. unfold merge_directive_dict. rewrite dict_get_pop_keys.
  destruct (mem_key k (expand_flag_keys raw VNone)) eqn:E; [reflexivity|].
  destruct Hk as [->|Hin].
  - apply dict_get_pop_same.
  - apply mem_key_In in Hin. congruence.
Qed.

(** What a whole merge leaves under [directives] when the overlay carries a
    [directives] mapping. *)
Lemma merge_configs_directives (base ov dov : dict) :
  mergeable base ->
  dict_get ov "directives" = Some (VDict dov) ->
  exists r,
    merge_configs base (VDict ov) = Return r /\
    mergeable r /\
    dict_get r "directives" =
    Some (VDict (merge_directives_dict (base_directives base) dov)).
Proof.
  intros Hm Hov.
  destruct (merge_configs_mergeable (VDict ov) base Hm) as [r [Hr Hmr]].
  exists r. split; [assumption|]. split; [assumption|].
  rewrite merge_configs_unfold in Hr.
  rewrite (directives_section_ok base ov dov) in Hr
    by (auto using mergeable_directives_ok).
  simpl in Hr. apply generic_merge_keeps_directives in Hr.
  rewrite Hr. apply dict_get_set_same.
Qed.

(** C6, as stated, fails: a later entry of the same overlay whose aliases
    name the deleted key binds it again. *)
Lemma deletion_undone_by_later_entry :
  merge_configs [("directives", VDict [("--x", VDict [("foo", VInt 1)])])]
    (VDict [("directives",
             VDict [("--x", VNone);
                    ("--y", VDict [("aliases", VList [VStr "--x"]);
                                   ("bar", VInt 2)])])])
  = Return [("directives",
             VDict [("--y", VDict [("bar", VInt 2)]);
                    ("--x", VDict [("bar", VInt 2)])])]
  /\ dict_get [("--y", VDict [("bar", VInt 2)]);
               ("--x", VDict [("bar", VInt 2)])] "--x"
     = Some (VDict [("bar", VInt 2)]).
Proof. split; reflexivity. Qed.

(** C6 (amended). Directive deletion: when the overlay's [directives] binds
    a raw key to null, the merged [directives] holds neither the raw key
    nor any key expanded from it, provided no later entry of the same
    overlay assigns it again; the base is any tree merges succeed on. *)
Theorem directive_deletion
    (base ov dov pre post : dict) (raw k : string) :
  mergeable base ->
  dict_get ov "directives" = Some (VDict dov) ->
  dov = (pre ++ (raw, VNone) :: post)%list ->
  (k = raw \/ In k (expand_flag_keys raw VNone)) ->
  (forall flag directive, In (flag, directive) post -> directive <> VNone ->
     ~ In k (expand_flag_keys flag directive)) ->
  exists r rd,
    merge_configs base (VDict ov) = Return r /\
    dict_get r "directives" = Some (VDict rd) /\
    dict_get rd k = None.
Proof.
  intros Hm Hov Hdov Hk Hpost.
  destruct (merge_configs_directives base ov dov Hm Hov) as [r [Hr [_ Hd]]].
  exists r. eexists. split; [exact Hr|]. split; [exact Hd|].
  subst dov. rewrite merge_directives_dict_app, merge_directives_dict_cons.
  apply merge_directives_dict_absent; [assumption|].
  now apply delete_step_removes.
Qed.

Lemma mergeable_flat_directives (dv : dict) :
  mergeable [("directives", VDict dv)].
Proof.
  constructor; [exact I|].
  intros k sub Hk H. unfold dict_get in H.
  destruct (String.eqb_spec "directives" k) as [E|E]; [congruence | discriminate].
Qed.

(** The instance of the specification:
    [merge({directives: {"--x": {foo: 1}}}, {directives: {"--x": null}})]. *)
Lemma directive_deletion_witness :
  exists r rd,
    merge_configs [("directives", VDict [("--x", VDict [("foo", VInt 1)])])]
                  (VDict [("directives", VDict [("--x", VNone)])]) = Return r /\
    dict_get r "directives" = Some (VDict rd) /\
    dict_get rd "--x" = None.
Proof.
  apply (directive_deletion
           [("directives", VDict [("--x", VDict [("foo", VInt 1)])])]
           [("directives", VDict [("--x", VNone)])]
           [("--x", VNone)] [] [] "--x" "--x").
  - apply mergeable_flat_directives.
  - reflexivity.
  - reflexivity.
  - left. reflexivity.
  - intros flag directive H. destruct H.
Defined.

(** ** Key expander *)

Lemma set_add_In (a k : string) (keys : list string) :
  In k (set_add a keys) <-> k = a \/ In k keys.
Proof.
  unfold set_add. destruct (existsb (String.eqb a) keys) eqn:E.
  - split; [now right|]. intros [->|H]; [|assumption].
    now apply mem_key_In.
  - rewrite in_app_iff. simpl. intuition.
Qed.

Lemma add_trimmed_In (xs : list string) :
  forall keys k,
    In k (add_trimmed xs keys) <->
    In k keys \/ exists x, In x xs /\ k = strip x /\ is_empty k = false.
Proof.
  induction xs as [|x rest IH]; intros keys k; simpl.
  - split; [now left|]. intros [H|[x [[] _]]]. exact H.
  - rewrite IH. destruct (is_empty (strip x)) eqn:E.
    + split.
      * intros [H|[y [Hy Hk]]]; [now left|]. right. exists y. tauto.
      * intros [H|[y [[->|Hy] [Hk Hne]]]]; [now left | | right; eauto].
        subst k. congruence.
    + rewrite set_add_In. split.
      * intros [[->|H]|[y [Hy Hk]]]; [right; exists x; tauto | now left |].
        right. exists y. tauto.
      * intros [H|[y [[->|Hy] [Hk Hne]]]]; [tauto | tauto | right; eauto].
Qed.

Lemma add_trimmed_keeps (xs keys : list string) (k : string) :
  In k keys -> In k (add_trimmed xs keys).
Proof. intros H. apply add_trimmed_In. now left. Qed.

Lemma alias_strings_In (items : list value) (a : string) :
  In (VStr a) items <-> In a (alias_strings items).
Proof.
  induction items as [|v rest IH]; simpl; [tauto|].
  destruct v; simpl; rewrite <- IH;
    try (split; [intros [H|H]; [discriminate | exact H] | now right]).
  split; (intros [H|H]; [left; congruence | now right]).
Qed.

Lemma add_alias_field_keeps (d : dict) (field : string) (keys : list string)
    (k : string) :
  In k keys -> In k (add_alias_field d field keys).
Proof.
  intros H. unfold add_alias_field.
  destruct (dict_get d field) as [v|]; [|assumption].
  destruct v; try assumption. now apply add_trimmed_keeps.
Qed.

Lemma add_alias_field_adds (body : dict) (field : string) (keys : list string)
    (k : string) :
  alias_key body field k -> In k (add_alias_field body field keys).
Proof.
  intros [items [a [Hget [Hin [Hk Hne]]]]]. unfold add_alias_field.
  rewrite Hget. apply add_trimmed_In. right. exists a.
  split; [now apply alias_strings_In | tauto].
Qed.

(** What [add_alias_field] can add at all. *)
Lemma add_alias_field_In (body : dict) (field : string) (keys : list string)
    (k : string) :
  In k (add_alias_field body field keys) ->
  In k keys \/ alias_key body field k.
Proof.
  unfold add_alias_field. intros H.
  destruct (dict_get body field) as [v|] eqn:E; [|now left].
  unfold alias_key. rewrite E.
  destruct v; try (now left).
  apply add_trimmed_In in H. destruct H as [H|[a [Ha [Hk Hne]]]]; [now left|].
  right. exists items, a. split; [reflexivity|].
  split; [now apply alias_strings_In | tauto].
Qed.

Lemma expand_flag_keys_raw (raw : string) (directive : value) (k : string) :
  In k (raw_keys raw) -> In k (expand_flag_keys raw directive).
Proof.
  unfold raw_keys, expand_flag_keys. intros H.
  destruct directive; try exact H.
  now apply add_alias_field_keeps, add_alias_field_keeps.
Qed.

Lemma expand_flag_keys_fan_out (raw : string) (body : dict) (k : string) :
  In k (expand_flag_keys raw (VDict body)) <-> fan_out_key raw body k.
Proof.
  unfold fan_out_key. split.
  - intros H. unfold expand_flag_keys in H.
    apply add_alias_field_In in H. destruct H as [H|H]; [|tauto].
    apply add_alias_field_In in H. destruct H as [H|H]; [left; exact H | tauto].
  - intros [H|[H|H]].
    + now apply expand_flag_keys_raw.
    + unfold expand_flag_keys.
      now apply add_alias_field_keeps, add_alias_field_adds.
    + unfold expand_flag_keys. now apply add_alias_field_adds.
Qed.

(** ** Directive cleaner *)

Lemma dict_set_fresh (d : dict) (k : string) (v : value) :
  ~ In k (dict_keys d) -> dict_set d k v = (d ++ [(k, v)])%list.
Proof.
  induction d as [|[q w] rest IH]; simpl; intros H; [reflexivity|].
  destruct (String.eqb_spec q k) as [E|E]; [tauto|].
  rewrite IH by tauto. reflexivity.
Qed.

Lemma clean_fold_filter (body : dict) :
  forall acc,
    NoDup (dict_keys acc ++ dict_keys body) ->
    fold_left
      (fun cleaned kv =>
         if is_alias_field (fst kv) then cleaned
         else dict_set cleaned (fst kv) (snd kv)) body acc =
    (acc ++ without_alias_fields body)%list.
Proof.
  induction body as [|[k v] rest IH]; intros acc Hnd; simpl.
  - now rewrite app_nil_r.
  - simpl in Hnd. destruct (is_alias_field k) eqn:E; simpl.
    + apply IH. now apply NoDup_remove_1 in Hnd.
    + rewrite IH.
      * rewrite dict_set_fresh.
        -- now rewrite <- app_assoc.
        -- apply NoDup_remove_2 in Hnd. rewrite in_app_iff in Hnd. tauto.
      * rewrite dict_set_fresh.
        -- unfold dict_keys. rewrite map_app. simpl.
           rewrite <- app_assoc. exact Hnd.
        -- apply NoDup_remove_2 in Hnd. rewrite in_app_iff in Hnd. tauto.
Qed.

(** On a body with distinct keys the cleaner is a filter: the two alias
    fields go, everything else stays, in order. *)
Lemma clean_directive_config_filter (body : dict) :
  NoDup (dict_keys body) ->
  clean_directive_config body = without_alias_fields body.
Proof.
  intros H. unfold clean_directive_config.
  now rewrite clean_fold_filter.
Qed.

Lemma without_alias_fields_get (body : dict) (k : string) :
  dict_get (without_alias_fields body) k =
  if is_alias_field k then None else dict_get body k.
Proof.
  induction body as [|[q w] rest IH]; simpl.
  - now destruct (is_alias_field k).
  - destruct (is_alias_field q) eqn:Eq; simpl.
    + destruct (String.eqb_spec q k) as [->|Hne].
      * rewrite Eq in *. exact IH.
      * exact IH.
    + destruct (String.eqb_spec q k) as [->|Hne].
      * now rewrite Eq.
      * exact IH.
Qed.

(** ** Tokens of the flag pattern *)

Lemma no_separator_app (a b : string) :
  no_separator (a ++ b) = no_separator a && no_separator b.
Proof.
  induction a as [|c r IH]; simpl; [reflexivity|].
  rewrite IH. now rewrite andb_assoc.
Qed.

Lemma is_canonical_extend (tok : string) (c : ascii) :
  is_canonical tok = true -> is_separator c = false ->
  is_canonical (tok ++ String c EmptyString) = true.
Proof.
  intros Htok Hc.
  destruct tok as [|c0 [|c1 [|c2 r]]]; try discriminate.
  change (is_canonical (String c0 (String c1 (String c2 r)))) with
    (Ascii.eqb c0 "-" && Ascii.eqb c1 "-"
     && no_separator (String c0 (String c1 (String c2 r)))) in Htok.
  change (is_canonical (String c0 (String c1 (String c2 r)) ++ String c EmptyString))
    with (Ascii.eqb c0 "-" && Ascii.eqb c1 "-"
          && no_separator (String c0 (String c1 (String c2 r))
                           ++ String c EmptyString)).
  rewrite no_separator_app. apply andb_true_iff in Htok. destruct Htok as [H1 H2].
  rewrite H1, H2. simpl. now rewrite Hc.
Qed.

Lemma findall_flags_from_canonical (n : nat) :
  forall s cur,
    String.length s <= n ->
    (forall tok, cur = Some tok -> is_canonical tok = true) ->
    Forall (fun t => is_canonical t = true) (findall_flags_from cur s).
Proof.
  induction n as [|n IH]; intros s cur Hlen Hcur.
  - destruct s; [|simpl in Hlen; lia].
    destruct cur as [tok|]; simpl; [|constructor].
    constructor; [now apply Hcur | constructor].
  - destruct s as [|c r].
    + destruct cur as [tok|]; simpl; [|constructor].
      constructor; [now apply Hcur | constructor].
    + simpl in Hlen. destruct cur as [tok|].
      * simpl. destruct (is_separator c) eqn:Ec.
        -- constructor; [now apply Hcur|].
           apply IH; [lia | discriminate].
        -- apply IH; [lia|]. intros t Ht. inversion Ht. subst t.
           apply is_canonical_extend; [now apply Hcur | assumption].
      * cbn [findall_flags_from].
        destruct r as [|c1 [|c2 r2]];
          try (apply IH; [simpl in *; lia | discriminate]).
        destruct (Ascii.eqb c "-" && Ascii.eqb c1 "-" && negb (is_separator c2))
          eqn:E.
        -- apply IH; [simpl in *; lia|]. intros t Ht. inversion Ht. subst t.
           apply andb_true_iff in E. destruct E as [E1 E2].
           unfold is_canonical. rewrite E1. simpl.
           apply andb_true_iff in E1. destruct E1 as [Ea Eb].
           apply Ascii.eqb_eq in Ea, Eb. subst c c1. simpl.
           now rewrite E2.
        -- apply IH; [simpl in *; lia | discriminate].
Qed.

Lemma findall_flags_canonical (s t : string) :
  In t (findall_flags s) -> is_canonical t = true.
Proof.
  intros H. unfold findall_flags in H.
  pose proof (findall_flags_from_canonical (String.length s) s None
                (le_n _)) as HF.
  rewrite Forall_forall in HF. apply HF; [discriminate | assumption].
Qed.

Lemma is_separator_space (c : ascii) :
  is_separator c = false -> is_space c = false.
Proof. unfold is_separator. intros H. now apply orb_false_iff in H. Qed.

Lemma rstrip_no_separator (s : string) :
  no_separator s = true -> rstrip s = s.
Proof.
  induction s as [|c r IH]; simpl; [reflexivity|].
  intros H. apply andb_true_iff in H. destruct H as [Hc Hr].
  apply negb_true_iff, is_separator_space in Hc.
  rewrite Hc. simpl. now rewrite IH.
Qed.

Lemma strip_no_separator (s : string) :
  no_separator s = true -> strip s = s.
Proof.
  intros H. unfold strip.
  destruct s as [|c r]; [reflexivity|].
  assert (Hl : lstrip (String c r) = String c r).
  { simpl in *. apply andb_true_iff in H. destruct H as [Hc _].
    apply negb_true_iff, is_separator_space in Hc. now rewrite Hc. }
  rewrite Hl. now apply rstrip_no_separator.
Qed.

Lemma is_canonical_no_separator (t : string) :
  is_canonical t = true -> no_separator t = true.
Proof.
  destruct t as [|c0 [|c1 [|c2 r]]]; try discriminate.
  unfold is_canonical. intros H. now apply andb_true_iff in H.
Qed.

Lemma is_canonical_nonempty (t : string) :
  is_canonical t = true -> is_empty t = false.
Proof. destruct t; [discriminate | reflexivity]. Qed.

Lemma strip_canonical (t : string) : is_canonical t = true -> strip t = t.
Proof. intros H. now apply strip_no_separator, is_canonical_no_separator. Qed.

(** Every token the pattern finds in a raw key is one of its keys. *)
Lemma findall_in_raw_keys (raw t : string) :
  In t (findall_flags raw) -> In t (raw_keys raw).
Proof.
  intros H. pose proof (findall_flags_canonical raw t H) as Hc.
  assert (Hin : In t (add_trimmed (findall_flags raw) [])).
  { apply add_trimmed_In. right. exists t. split; [assumption|].
    split; [symmetry; now apply strip_canonical
           | now apply is_canonical_nonempty]. }
  unfold raw_keys, expand_flag_keys.
  destruct (add_trimmed (findall_flags raw) []); [destruct Hin | exact Hin].
Qed.

(** The keys of a raw key are its tokens, or, failing any, its trimmed
    non-empty parts. *)
Lemma raw_keys_origin (raw k : string) :
  In k (raw_keys raw) -> key_origin raw VNone k.
Proof.
  unfold raw_keys, expand_flag_keys, key_origin. intros H.
  destruct (add_trimmed (findall_flags raw) []) as [|k0 ks] eqn:E.
  - right. left. split.
    + destruct (findall_flags raw) as [|t ts] eqn:Ef; [reflexivity|].
      exfalso.
      assert (Ht : In t (findall_flags raw)) by (rewrite Ef; now left).
      pose proof (findall_flags_canonical raw t Ht) as Hc.
      assert (Hin : In t (add_trimmed (t :: ts) [])).
      { apply add_trimmed_In. right. exists t. split; [now left|].
        split; [symmetry; now apply strip_canonical
               | now apply is_canonical_nonempty]. }
      rewrite E in Hin. destruct Hin.
    + apply add_trimmed_In in H. destruct H as [[]|H]. exact H.
  - left. rewrite <- E in H. apply add_trimmed_In in H.
    destruct H as [[]|[x [Hx [Hk Hne]]]].
    pose proof (findall_flags_canonical raw x Hx) as Hc.
    rewrite strip_canonical in Hk by assumption. subst k. tauto.
Qed.

Lemma expand_flag_keys_origin (raw : string) (directive : value) (k : string) :
  In k (expand_flag_keys raw directive) -> key_origin raw directive k.
Proof.
  intros H.
  assert (Hraw : In k (raw_keys raw) -> key_origin raw directive k).
  { intros Hr. apply raw_keys_origin in Hr. unfold key_origin in *.
    destruct Hr as [Hr|[Hr|[body [Hb _]]]]; [tauto | tauto | discriminate]. }
  destruct directive as [| | | | |body]; try (now apply Hraw).
  apply expand_flag_keys_fan_out in H. destruct H as [H|H]; [now apply Hraw|].
  right. right. exists body. tauto.
Qed.

(** ** The flag pattern on a compound key *)

Lemma string_app_nil_r (s : string) : (s ++ "")%string = s.
Proof. induction s as [|c r IH]; simpl; [reflexivity | now rewrite IH]. Qed.

Lemma string_app_assoc (a b c : string) :
  ((a ++ b) ++ c)%string = (a ++ (b ++ c))%string.
Proof. induction a as [|x r IH]; simpl; [reflexivity | now rewrite IH]. Qed.

Lemma separator_not_dash (c : ascii) :
  is_separator c = true -> Ascii.eqb c "-" = false.
Proof.
  intros H. destruct (Ascii.eqb_spec c "-") as [->|Hne]; [|reflexivity].
  vm_compute in H. discriminate.
Qed.

(** Padding in front of a key yields no token. *)
Lemma findall_skip_padding (pad : string) :
  all_separators pad = true ->
  forall s, findall_flags_from None (pad ++ s) = findall_flags_from None s.
Proof.
  induction pad as [|c r IH]; intros Hpad s; [reflexivity|].
  cbn [all_separators] in Hpad. apply andb_true_iff in Hpad.
  destruct Hpad as [Hc Hr]. specialize (IH Hr s).
  cbn [append findall_flags_from]. rewrite (separator_not_dash c Hc).
  remember (r ++ s)%string as u. clear Hequ.
  destruct u as [|c1 [|c2 r2]]; exact IH.
Qed.

(** Inside a token, characters that are no separators extend it. *)
Lemma findall_token_run (u : string) :
  no_separator u = true ->
  forall tok s,
    findall_flags_from (Some tok) (u ++ s)
    = findall_flags_from (Some (tok ++ u)) s.
Proof.
  induction u as [|c r IH]; intros Hu tok s.
  - now rewrite string_app_nil_r.
  - cbn [no_separator] in Hu. apply andb_true_iff in Hu.
    destruct Hu as [Hc Hr]. apply negb_true_iff in Hc.
    cbn [append findall_flags_from]. rewrite Hc, (IH Hr).
    now rewrite string_app_assoc.
Qed.

(** A canonical token at the head of the text starts a match. *)
Lemma findall_start_token (t : string) :
  is_canonical t = true ->
  forall s, findall_flags_from None (t ++ s) = findall_flags_from (Some t) s.
Proof.
  intros Ht s. destruct t as [|c0 [|c1 [|c2 r]]]; try discriminate.
  unfold is_canonical in Ht. apply andb_true_iff in Ht.
  destruct Ht as [Hdash Hns].
  cbn [no_separator] in Hns.
  apply andb_true_iff in Hns. destruct Hns as [_ Hns].
  apply andb_true_iff in Hns. destruct Hns as [_ Hns].
  apply andb_true_iff in Hns. destruct Hns as [Hc2 Hr].
  cbn [append findall_flags_from]. rewrite Hdash, Hc2. cbn [andb].
  now rewrite (findall_token_run r Hr).
Qed.

(** On a compound key the pattern finds exactly the tokens spelled. *)
Lemma compound_key_findall (raw : string) (tokens : list string) :
  compound_key raw tokens -> findall_flags raw = tokens.
Proof.
  unfold findall_flags.
  induction 1 as [pad Hpad|pad t Hpad Ht|pad t c rest tokens Hpad Ht Hc _ IH].
  - rewrite <- (string_app_nil_r pad).
    now rewrite (findall_skip_padding pad Hpad).
  - rewrite (findall_skip_padding pad Hpad).
    rewrite <- (string_app_nil_r t) at 1.
    now rewrite (findall_start_token t Ht).
  - rewrite (findall_skip_padding pad Hpad), (findall_start_token t Ht).
    cbn [findall_flags_from]. now rewrite Hc, IH.
Qed.

Lemma compound_key_expanded (raw : string) (tokens : list string)
    (directive : value) (t : string) :
  compound_key raw tokens -> In t tokens ->
  In t (expand_flag_keys raw directive).
Proof.
  intros Hraw Ht. apply expand_flag_keys_raw, findall_in_raw_keys.
  now rewrite (compound_key_findall raw tokens Hraw).
Qed.

(** ** Alias fan-out *)

(** C3, as stated, fails in two ways: an alias string is used trimmed, so
    the string itself (here [" --z "]) is no key of the result; and a later
    entry of the same overlay that touches a fanned-out key (here [--w])
    replaces the body assigned under it. *)
Lemma alias_fan_out_overridden :
  merge_configs []
    (VDict [("directives",
             VDict [("--x, --y",
                     VDict [("aliases", VList [VStr " --z "; VStr "--w"]);
                            ("mode", VStr "fast")]);
                    ("--w", VDict [("mode", VStr "slow")])])])
  = Return [("directives",
             VDict [("--x", VDict [("mode", VStr "fast")]);
                    ("--y", VDict [("mode", VStr "fast")]);
                    ("--z", VDict [("mode", VStr "fast")]);
                    ("--w", VDict [("mode", VStr "slow")])])]
  /\ dict_get [("--x", VDict [("mode", VStr "fast")]);
               ("--y", VDict [("mode", VStr "fast")]);
               ("--z", VDict [("mode", VStr "fast")]);
               ("--w", VDict [("mode", VStr "slow")])] " --z " = None
  /\ dict_get [("--x", VDict [("mode", VStr "fast")]);
               ("--y", VDict [("mode", VStr "fast")]);
               ("--z", VDict [("mode", VStr "fast")]);
               ("--w", VDict [("mode", VStr "slow")])] "--w"
     <> Some (VDict [("mode", VStr "fast")]).
Proof. repeat split; try reflexivity. discriminate. Qed.

(** C3 (amended). Alias fan-out: when the overlay's [directives] binds a
    compound raw key, spelling the canonical tokens [tokens], to a mapping
    directive, the merged [directives] holds the directive body without its
    [aliases] and [variations] fields under every one of these tokens and
    under every trimmed non-empty alias or variation string, provided no
    later entry of the same overlay touches that key. *)
Theorem alias_fan_out
    (base ov dov pre post body : dict) (raw k : string)
    (tokens : list string) :
  mergeable base ->
  NoDup (dict_keys body) ->
  dict_get ov "directives" = Some (VDict dov) ->
  dov = (pre ++ (raw, VDict body) :: post)%list ->
  compound_key raw tokens ->
  (In k tokens \/ alias_key body "aliases" k \/ alias_key body "variations" k) ->
  (forall flag directive, In (flag, directive) post ->
     ~ In k (expand_flag_keys flag directive) /\
     (directive = VNone -> k <> flag)) ->
  exists r rd,
    merge_configs base (VDict ov) = Return r /\
    dict_get r "directives" = Some (VDict rd) /\
    dict_get rd k = Some (VDict (without_alias_fields body)).
Proof.
  intros Hm Hnd Hov Hdov Hraw Hk Hpost.
  assert (Hin : In k (expand_flag_keys raw (VDict body))).
  { destruct Hk as [Hk|Hk].
    - now apply (compound_key_expanded raw tokens).
    - apply expand_flag_keys_fan_out. now right. }
  destruct (merge_configs_directives base ov dov Hm Hov) as [r [Hr [_ Hd]]].
  exists r. eexists. split; [exact Hr|]. split; [exact Hd|].
  subst dov. rewrite merge_directives_dict_app, merge_directives_dict_cons.
  rewrite merge_directives_dict_other by assumption.
  unfold merge_directive_dict. rewrite dict_get_assign_keys.
  apply mem_key_In in Hin. rewrite Hin.
  now rewrite clean_directive_config_filter.
Qed.

Lemma compound_x_y : compound_key "--x, --y" ["--x"; "--y"].
Proof.
  apply (compound_more "" "--x" "," " --y" ["--y"]); try reflexivity.
  apply (compound_last " " "--y"); reflexivity.
Qed.

(** The instance of the specification, with a field to keep: the token
    [--y] of [merge({}, {directives: {"--x, --y": {aliases: ["--z"],
    mode: "fast"}}})]. *)
Lemma alias_fan_out_witness :
  exists r rd,
    merge_configs []
      (VDict [("directives",
               VDict [("--x, --y",
                       VDict [("aliases", VList [VStr "--z"]);
                              ("mode", VStr "fast")])])])
    = Return r /\
    dict_get r "directives" = Some (VDict rd) /\
    dict_get rd "--y"
    = Some (VDict (without_alias_fields
                     [("aliases", VList [VStr "--z"]);
                      ("mode", VStr "fast")])).
Proof.
  apply (alias_fan_out []
           [("directives",
             VDict [("--x, --y",
                     VDict [("aliases", VList [VStr "--z"]);
                            ("mode", VStr "fast")])])]
           [("--x, --y",
             VDict [("aliases", VList [VStr "--z"]); ("mode", VStr "fast")])]
           [] [] [("aliases", VList [VStr "--z"]); ("mode", VStr "fast")]
           "--x, --y" "--y" ["--x"; "--y"]).
  - apply mergeable_nil.
  - repeat constructor; simpl; intuition discriminate.
  - reflexivity.
  - reflexivity.
  - apply compound_x_y.
  - left. simpl. tauto.
  - intros flag directive H. destruct H.
Defined.

(** The whole result on the example of the specification. *)
Example alias_fan_out_example :
  merge_configs []
    (VDict [("directives",
             VDict [("--x, --y", VDict [("aliases", VList [VStr "--z"]);
                                        ("mode", VStr "fast")])])])
  = Return [("directives",
             VDict [("--x", VDict [("mode", VStr "fast")]);
                    ("--y", VDict [("mode", VStr "fast")]);
                    ("--z", VDict [("mode", VStr "fast")])])].
Proof. reflexivity. Qed.

(** ** Normalisation *)

Lemma dict_keys_set (d : dict) (k q : string) (v : value) :
  In q (dict_keys (dict_set d k v)) -> q = k \/ In q (dict_keys d).
Proof.
  induction d as [|[k' v'] rest IH]; simpl.
  - intros [H|[]]. now left.
  - destruct (String.eqb_spec k' k) as [->|Hne]; simpl.
    + intros [H|H]; [now left | right; now right].
    + intros [H|H]; [right; now left|].
      apply IH in H. tauto.
Qed.

Lemma dict_keys_assign (keys : list string) (v : value) (q : string) :
  forall d,
    In q (dict_keys (assign_keys d keys v)) ->
    In q keys \/ In q (dict_keys d).
Proof.
  induction keys as [|k rest IH]; intros d H; simpl in *; [now right|].
  apply IH in H. destruct H as [H|H]; [tauto|].
  apply dict_keys_set in H. intuition.
Qed.

Lemma dict_keys_normalize_entry (d : dict) (raw : string) (directive : value)
    (q : string) :
  In q (dict_keys (normalize_entry d raw directive)) ->
  In q (expand_flag_keys raw directive) \/ In q (dict_keys d).
Proof.
  unfold normalize_entry.
  destruct directive; intros H; now apply dict_keys_assign in H.
Qed.

Lemma dict_keys_normalize_fold (dm : dict) (q : string) :
  forall acc,
    In q (dict_keys
            (fold_left (fun normalized kv =>
                          normalize_entry normalized (fst kv) (snd kv)) dm acc)) ->
    In q (dict_keys acc) \/
    exists raw directive,
      In (raw, directive) dm /\ In q (expand_flag_keys raw directive).
Proof.
  induction dm as [|[raw directive] rest IH]; intros acc H; simpl in H.
  - now left.
  - apply IH in H. destruct H as [H|[r [d [Hin Hk]]]].
    + apply dict_keys_normalize_entry in H. simpl in H.
      destruct H as [H|H]; [|now left].
      right. exists raw, directive. split; [now left | assumption].
    + right. exists r, d. split; [now right | assumption].
Qed.

Lemma normalize_map_keys (dm : dict) (q : string) :
  In q (dict_keys (normalize_map dm)) ->
  exists raw directive,
    In (raw, directive) dm /\ key_origin raw directive q.
Proof.
  intros H. apply dict_keys_normalize_fold in H.
  destruct H as [[]|[raw [directive [Hin Hk]]]].
  exists raw, directive. split; [assumption|].
  now apply expand_flag_keys_origin.
Qed.

Lemma normalize_directives_map (config nd : dict) :
  dict_get (normalize_directives config) "directives" = Some (VDict nd) ->
  exists dm, dict_get config "directives" = Some (VDict dm) /\
             nd = normalize_map dm.
Proof.
  unfold normalize_directives.
  destruct (dict_get config "directives") as [v|] eqn:E.
  - destruct v; try (rewrite E; discriminate).
    rewrite dict_get_set_same. intros H. inversion H. eauto.
  - rewrite E. discriminate.
Qed.

(** C7, as stated, fails: a raw key without any flag token and an alias
    string are kept as keys of the normalized map. *)
Lemma normalized_keys_not_canonical :
  load_config flat_pathlib fs_loose_keys 1 ["claude"] =
  Some (Return (Some [("directives",
                       VDict [("analyze", VInt 1);
                              ("--x", VDict []);
                              ("fast mode", VDict [])])]))
  /\ is_canonical "analyze" = false
  /\ is_canonical "fast mode" = false.
Proof. repeat split; reflexivity. Qed.

Lemma load_config_success (pl : pathlib) (fs : filesystem) (fuel : nat)
    (profiles : list string) (cfg : dict) :
  load_config pl fs fuel profiles = Some (Return (Some cfg)) ->
  exists merged visited,
    load_profiles pl fs fuel profiles [] [] = Some (Return (merged, visited)) /\
    cfg = normalize_directives merged.
Proof.
  unfold load_config. destruct profiles as [|p ps]; [discriminate|].
  destruct (load_profiles pl fs fuel (p :: ps) [] []) as [[[m v]|e]|];
    try discriminate.
  - intros H. inversion H. eauto.
  - destruct e; discriminate.
Qed.

(** C7 (amended). After a successful resolution every key of the normalized
    [directives] map comes from an entry of the merged map and is either a
    canonical flag token found in the raw key, or, when the raw key holds
    no such token, a trimmed non-empty comma- or pipe-separated part of it,
    or a trimmed non-empty alias or variation string. *)
Theorem normalized_keys_origin (pl : pathlib) (fs : filesystem) (fuel : nat)
    (profiles : list string) (cfg nd : dict) (k : string) :
  load_config pl fs fuel profiles = Some (Return (Some cfg)) ->
  dict_get cfg "directives" = Some (VDict nd) ->
  In k (dict_keys nd) ->
  exists merged visited dm raw directive,
    load_profiles pl fs fuel profiles [] [] = Some (Return (merged, visited)) /\
    dict_get merged "directives" = Some (VDict dm) /\
    In (raw, directive) dm /\
    key_origin raw directive k.
Proof.
  intros Hload Hget Hk.
  destruct (load_config_success pl fs fuel profiles cfg Hload)
    as [merged [visited [Hm Hcfg]]].
  subst cfg. apply normalize_directives_map in Hget.
  destruct Hget as [dm [Hdm Hnd]]. subst nd.
  apply normalize_map_keys in Hk. destruct Hk as [raw [directive [Hin Ho]]].
  exists merged, visited, dm, raw, directive. tauto.
Qed.

Lemma normalized_keys_origin_witness :
  exists merged visited dm raw directive,
    load_profiles flat_pathlib fs_loose_keys 1 ["claude"] [] [] =
      Some (Return (merged, visited)) /\
    dict_get merged "directives" = Some (VDict dm) /\
    In (raw, directive) dm /\
    key_origin raw directive "fast mode".
Proof.
  apply (normalized_keys_origin flat_pathlib fs_loose_keys 1 ["claude"]
           [("directives",
             VDict [("analyze", VInt 1); ("--x", VDict []);
                    ("fast mode", VDict [])])]
           [("analyze", VInt 1); ("--x", VDict []); ("fast mode", VDict [])]).
  - reflexivity.
  - reflexivity.
  - simpl. tauto.
Defined.

(** ** Termination of the loader *)

Lemma in_visited_In (p : path) (visited : visited_set) :
  in_visited p visited = true <-> In p visited.
Proof. apply mem_key_In. Qed.

Lemma lookup_In {A : Type} (l : list (path * A)) (p : path) (a : A) :
  lookup l p = Some a -> In p (map fst l).
Proof.
  induction l as [|[q b] rest IH]; simpl; [discriminate|].
  destruct (String.eqb_spec q p) as [->|Hne]; [now left|].
  intros H. right. now apply IH.
Qed.

Lemma filter_length_mono {A : Type} (f g : A -> bool) (l : list A) :
  (forall x, g x = true -> f x = true) ->
  List.length (filter g l) <= List.length (filter f l).
Proof.
  intros Hfg. induction l as [|x rest IH]; simpl; [lia|].
  destruct (g x) eqn:Eg.
  - rewrite (Hfg x Eg). simpl. lia.
  - destruct (f x); simpl; lia.
Qed.

Lemma filter_length_strict {A : Type} (f g : A -> bool) (l : list A) (x : A) :
  (forall y, g y = true -> f y = true) ->
  In x l -> f x = true -> g x = false ->
  List.length (filter g l) < List.length (filter f l).
Proof.
  intros Hfg Hin Hf Hg. induction l as [|y rest IH]; [destruct Hin|].
  simpl. destruct Hin as [->|Hin].
  - rewrite Hf, Hg. simpl.
    pose proof (filter_length_mono f g rest Hfg). lia.
  - specialize (IH Hin). destruct (g y) eqn:Eg.
    + rewrite (Hfg y Eg). simpl. lia.
    + destruct (f y); simpl; lia.
Qed.

Lemma unvisited_mono (fs : filesystem) (v v' : visited_set) :
  incl v v' -> unvisited fs v' <= unvisited fs v.
Proof.
  intros Hincl. unfold unvisited. apply filter_length_mono.
  intros p Hp. apply negb_true_iff in Hp. apply negb_true_iff.
  destruct (in_visited p v) eqn:E; [|reflexivity].
  apply in_visited_In in E. apply Hincl, in_visited_In in E. congruence.
Qed.

Lemma unvisited_add (fs : filesystem) (p : path) (v : visited_set) :
  In p (map fst (fs_files fs)) -> in_visited p v = false ->
  unvisited fs (p :: v) < unvisited fs v.
Proof.
  intros Hin Hv. unfold unvisited. apply filter_length_strict with (x := p).
  - intros q Hq. apply negb_true_iff in Hq. apply negb_true_iff.
    simpl in Hq. now apply orb_false_iff in Hq.
  - assumption.
  - now rewrite Hv.
  - simpl. now rewrite String.eqb_refl.
Qed.

Section LoopsTotal.

Variable pl : pathlib.
Variable fs : filesystem.
Variable load : path -> visited_set -> loading.
Variable V0 : visited_set.

Hypothesis load_answers :
  forall p v, incl V0 v -> answers (load p v) v.

Lemma load_targets_answers (targets : list path) :
  forall combined v, incl V0 v ->
    answers (load_targets fs load targets combined v) v.
Proof.
  induction targets as [|p rest IH]; intros combined v Hv;
    cbn [load_targets].
  - eexists. split; [reflexivity|]. intros t v' H. inversion H.
    apply incl_refl.
  - destruct (negb (path_exists fs p)).
    { eexists. split; [reflexivity | discriminate]. }
    destruct (load_answers p v Hv) as [r [Hr Hmono]]. rewrite Hr.
    destruct r as [[tree v1]|e];
      [|eexists; split; [reflexivity | discriminate]].
    pose proof (Hmono tree v1 eq_refl) as Hv1.
    destruct (merge_configs combined (VDict tree)) as [c|e];
      [|eexists; split; [reflexivity | discriminate]].
    destruct (IH c v1) as [r' [Hr' Hmono']].
    { eapply incl_tran; eassumption. }
    exists r'. split; [assumption|].
    intros t v' H. eapply incl_tran; [exact Hv1 | eauto].
Qed.

Lemma load_includes_answers (refs : list value) (base_path : path) :
  forall combined v, incl V0 v ->
    answers (load_includes pl fs load refs base_path combined v) v.
Proof.
  induction refs as [|ref rest IH]; intros combined v Hv;
    cbn [load_includes].
  - eexists. split; [reflexivity|]. intros t v' H. inversion H.
    apply incl_refl.
  - destruct ref; try (now apply IH).
    destruct (is_empty (strip s)); [now apply IH|].
    destruct (resolve_include_targets pl fs s base_path) as [targets|e];
      [|eexists; split; [reflexivity | discriminate]].
    destruct (load_targets_answers targets combined v Hv) as [r [Hr Hmono]].
    rewrite Hr.
    destruct r as [[c v1]|e];
      [|eexists; split; [reflexivity | discriminate]].
    pose proof (Hmono c v1 eq_refl) as Hv1.
    destruct (IH c v1) as [r' [Hr' Hmono']].
    { eapply incl_tran; eassumption. }
    exists r'. split; [assumption|].
    intros t v' H. eapply incl_tran; [exact Hv1 | eauto].
Qed.

End LoopsTotal.

Lemma load_profile_tree_answers (pl : pathlib) (fs : filesystem) (fuel : nat) :
  forall p v,
    unvisited fs v < fuel ->
    answers (load_profile_tree pl fs fuel p v) v.
Proof.
  induction fuel as [|fuel IH]; intros p v Hfuel; [lia|].
  cbn [load_profile_tree].
  destruct (in_visited (resolve pl p) v) eqn:Ev.
  { eexists. split; [reflexivity|]. intros t v' H. inversion H.
    apply incl_refl. }
  unfold open_and_parse.
  destruct (is_dir fs (resolve pl p));
    [eexists; split; [reflexivity | discriminate]|].
  destruct (lookup (fs_files fs) (resolve pl p)) as [[|doc]|] eqn:El;
    try (eexists; split; [reflexivity | discriminate]).
  destruct (pop_includes (if truthy doc then doc else VDict []))
    as [[inc body]|e]; [|eexists; split; [reflexivity | discriminate]].
  destruct (iterate (if truthy inc then inc else VList [])) as [refs|e];
    [|eexists; split; [reflexivity | discriminate]].
  assert (Hlt : unvisited fs (resolve pl p :: v) < fuel).
  { apply lookup_In in El.
    pose proof (unvisited_add fs (resolve pl p) v El Ev). lia. }
  destruct (load_includes_answers pl fs (load_profile_tree pl fs fuel)
              (resolve pl p :: v)
              (fun q w Hw => IH q w
                 (Nat.le_lt_trans _ _ _ (unvisited_mono fs _ _ Hw) Hlt))
              refs (resolve pl p) [] (resolve pl p :: v) (incl_refl _))
    as [r [Hr Hmono]].
  rewrite Hr. destruct r as [[c v1]|e];
    [|eexists; split; [reflexivity | discriminate]].
  pose proof (Hmono c v1 eq_refl) as Hv1.
  destruct (merge_configs c (VDict body)) as [c'|e];
    [|eexists; split; [reflexivity | discriminate]].
  eexists. split; [reflexivity|].
  intros t v' H. inversion H. subst.
  intros q Hq. apply Hv1. now right.
Qed.

Lemma unvisited_le_files (fs : filesystem) (v : visited_set) :
  unvisited fs v <= List.length (fs_files fs).
Proof.
  unfold unvisited.
  rewrite <- (length_map fst (fs_files fs)). apply List.filter_length_le.
Qed.

(** C4. The loader terminates on every include graph: a recursion budget
    above the number of files always yields an outcome, and a path whose
    resolved form is already in the visited set returns the empty
    configuration at once, whatever the file system holds there. *)
Theorem load_profile_tree_terminates (pl : pathlib) (fs : filesystem)
    (fuel : nat) (p : path) (v : visited_set) :
  List.length (fs_files fs) < fuel ->
  (exists r, load_profile_tree pl fs fuel p v = Some r) /\
  (in_visited (resolve pl p) v = true ->
   forall fs', load_profile_tree pl fs' fuel p v = Some (Return ([], v))).
Proof.
  intros Hfuel. split.
  - destruct (load_profile_tree_answers pl fs fuel p v) as [r [Hr _]].
    + pose proof (unvisited_le_files fs v). lia.
    + eauto.
  - intros Hv fs'. destruct fuel as [|fuel]; [lia|].
    cbn [load_profile_tree]. now rewrite Hv.
Qed.

Lemma load_profile_tree_terminates_witness :
  (exists r, load_profile_tree flat_pathlib fs_cycle 3 "a.yaml" ["a.yaml"]
             = Some r) /\
  (in_visited (resolve flat_pathlib "a.yaml") ["a.yaml"] = true ->
   forall fs', load_profile_tree flat_pathlib fs' 3 "a.yaml" ["a.yaml"]
               = Some (Return ([], ["a.yaml"]))).
Proof.
  apply (load_profile_tree_terminates flat_pathlib fs_cycle 3 "a.yaml"
           ["a.yaml"]).
  simpl. lia.
Defined.

(** Two files including each other: the second visit of [a.yaml] adds
    nothing, and both bodies arrive in the result. *)
Example include_cycle_example :
  load_profile_tree flat_pathlib fs_cycle 3 "a.yaml" [] =
  Some (Return ([("from_b", VInt 2); ("from_a", VInt 1)],
                ["b.yaml"; "a.yaml"])).
Proof. reflexivity. Qed.

(** ** Precedence of a file's own body *)

Lemma merge_configs_returns_mergeable (base : dict) (overlay : value) (r : dict) :
  mergeable base -> merge_configs base overlay = Return r -> mergeable r.
Proof.
  intros Hm Hr.
  destruct (merge_configs_mergeable overlay base Hm) as [r' [Hr' Hm']].
  congruence.
Qed.

Lemma load_targets_mergeable (fs : filesystem)
    (load : path -> visited_set -> loading) (targets : list path) :
  forall combined v c v',
    mergeable combined ->
    load_targets fs load targets combined v = Some (Return (c, v')) ->
    mergeable c.
Proof.
  induction targets as [|p rest IH]; intros combined v c v' Hm H;
    cbn [load_targets] in H.
  - inversion H. now subst.
  - destruct (negb (path_exists fs p)); [discriminate|].
    destruct (load p v) as [[[tree v1]|e]|]; try discriminate.
    destruct (merge_configs combined (VDict tree)) as [c1|e] eqn:E;
      [|discriminate].
    eapply IH; [|exact H]. eapply merge_configs_returns_mergeable; eassumption.
Qed.

Lemma load_includes_mergeable (pl : pathlib) (fs : filesystem)
    (load : path -> visited_set -> loading) (refs : list value)
    (base_path : path) :
  forall combined v c v',
    mergeable combined ->
    load_includes pl fs load refs base_path combined v = Some (Return (c, v')) ->
    mergeable c.
Proof.
  induction refs as [|ref rest IH]; intros combined v c v' Hm H;
    cbn [load_includes] in H.
  - inversion H. now subst.
  - destruct ref; try (eapply IH; eassumption).
    destruct (is_empty (strip s)); [eapply IH; eassumption|].
    destruct (resolve_include_targets pl fs s base_path) as [targets|e];
      [|discriminate].
    destruct (load_targets fs load targets combined v)
      as [[[c1 v1]|e]|] eqn:E; try discriminate.
    eapply IH; [|exact H]. eapply load_targets_mergeable; eassumption.
Qed.

(** A successful first visit of a file holding a mapping: the includes are
    combined first, the file's own body is merged onto them last. *)
Lemma load_profile_tree_own_body (pl : pathlib) (fs : filesystem) (fuel : nat)
    (p : path) (v v' : visited_set) (d tree : dict) :
  load_profile_tree pl fs (S fuel) p v = Some (Return (tree, v')) ->
  in_visited (resolve pl p) v = false ->
  lookup (fs_files fs) (resolve pl p) = Some (Document (VDict d)) ->
  exists combined,
    load_includes pl fs (load_profile_tree pl fs fuel) (include_refs d)
      (resolve pl p) [] (resolve pl p :: v) = Some (Return (combined, v')) /\
    mergeable combined /\
    merge_configs combined (VDict (dict_pop d "includes")) = Return tree.
Proof.
  intros H Hv Hfile. cbn [load_profile_tree] in H. rewrite Hv in H.
  unfold open_and_parse in H. rewrite Hfile in H.
  destruct (is_dir fs (resolve pl p)); [discriminate|].
  assert (Hdata : (if truthy (VDict d) then VDict d else VDict []) = VDict d)
    by (destruct d; reflexivity).
  rewrite Hdata in H. cbn [pop_includes] in H.
  unfold include_refs.
  destruct (iterate _) as [refs|e]; [|discriminate].
  destruct (load_includes pl fs (load_profile_tree pl fs fuel) refs
              (resolve pl p) [] (resolve pl p :: v))
    as [[[combined v1]|e]|] eqn:E; try discriminate.
  destruct (merge_configs combined (VDict (dict_pop d "includes")))
    as [c|e] eqn:Em; [|discriminate].
  inversion H. subst. exists combined. split; [reflexivity|].
  split; [|assumption].
  eapply load_includes_mergeable; [apply mergeable_nil | exact E].
Qed.

Lemma own_step_value (d0 : dict) (raw : string) (directive : value) (k : string) :
  In k (expand_flag_keys raw directive) ->
  dict_get (merge_directive_dict d0 raw directive) k = own_value directive.
Proof.
  intros Hk. destruct directive;
    try (unfold merge_directive_dict; rewrite dict_get_assign_keys;
         apply mem_key_In in Hk; now rewrite Hk).
  apply delete_step_removes. now right.
Qed.

(** C5. A file's own body is merged after, and so takes precedence over,
    everything it includes: the loader combines the includes first and
    merges the body (without [includes]) last, and the file's own entry for
    a key decides what [directives] holds under it, whatever the includes
    brought in and in whatever order. *)
Theorem own_body_takes_precedence (pl : pathlib) (fs : filesystem) (fuel : nat)
    (p : path) (v v' : visited_set) (d tree dov pre post : dict)
    (raw k : string) (directive : value) :
  load_profile_tree pl fs (S fuel) p v = Some (Return (tree, v')) ->
  in_visited (resolve pl p) v = false ->
  lookup (fs_files fs) (resolve pl p) = Some (Document (VDict d)) ->
  dict_get d "directives" = Some (VDict dov) ->
  dov = (pre ++ (raw, directive) :: post)%list ->
  In k (expand_flag_keys raw directive) ->
  (forall flag later, In (flag, later) post ->
     ~ In k (expand_flag_keys flag later) /\ (later = VNone -> k <> flag)) ->
  (exists combined,
     load_includes pl fs (load_profile_tree pl fs fuel) (include_refs d)
       (resolve pl p) [] (resolve pl p :: v) = Some (Return (combined, v')) /\
     merge_configs combined (VDict (dict_pop d "includes")) = Return tree) /\
  (exists rd,
     dict_get tree "directives" = Some (VDict rd) /\
     dict_get rd k = own_value directive).
Proof.
  intros Hload Hv Hfile Hdir Hdov Hk Hpost.
  destruct (load_profile_tree_own_body pl fs fuel p v v' d tree Hload Hv Hfile)
    as [combined [Hinc [Hm Hmerge]]].
  split; [exists combined; tauto|].
  assert (Hbody : dict_get (dict_pop d "includes") "directives"
                  = Some (VDict dov))
    by (rewrite dict_get_pop_other; [assumption | discriminate]).
  destruct (merge_configs_directives combined _ dov Hm Hbody)
    as [r [Hr [_ Hd]]].
  rewrite Hmerge in Hr. inversion Hr. subst r.
  eexists. split; [exact Hd|].
  subst dov. rewrite merge_directives_dict_app, merge_directives_dict_cons.
  rewrite merge_directives_dict_other by assumption.
  now apply own_step_value.
Qed.

Lemma own_body_takes_precedence_witness :
  (exists combined,
     load_includes flat_pathlib fs_precedence
       (load_profile_tree flat_pathlib fs_precedence 1)
       (include_refs
          [("includes", VList [VStr "b.yaml"; VStr "c.yaml"]);
           ("directives", VDict [("--x", VDict [("who", VStr "a")])])])
       (resolve flat_pathlib "a.yaml") [] [resolve flat_pathlib "a.yaml"]
     = Some (Return (combined, ["c.yaml"; "b.yaml"; "a.yaml"])) /\
     merge_configs combined
       (VDict (dict_pop
                 [("includes", VList [VStr "b.yaml"; VStr "c.yaml"]);
                  ("directives", VDict [("--x", VDict [("who", VStr "a")])])]
                 "includes"))
     = Return [("directives",
                VDict [("--x", VDict [("who", VStr "a")]);
                       ("--y", VDict [("who", VStr "b")])])]) /\
  (exists rd,
     dict_get [("directives",
                VDict [("--x", VDict [("who", VStr "a")]);
                       ("--y", VDict [("who", VStr "b")])])] "directives"
     = Some (VDict rd) /\
     dict_get rd "--x" = own_value (VDict [("who", VStr "a")])).
Proof.
  apply (own_body_takes_precedence flat_pathlib fs_precedence 1 "a.yaml" []
           ["c.yaml"; "b.yaml"; "a.yaml"]
           [("includes", VList [VStr "b.yaml"; VStr "c.yaml"]);
            ("directives", VDict [("--x", VDict [("who", VStr "a")])])]
           [("directives",
             VDict [("--x", VDict [("who", VStr "a")]);
                    ("--y", VDict [("who", VStr "b")])])]
           [("--x", VDict [("who", VStr "a")])] [] [] "--x" "--x"
           (VDict [("who", VStr "a")])).
  - reflexivity.
  - reflexivity.
  - reflexivity.
  - reflexivity.
  - reflexivity.
  - simpl. tauto.
  - intros flag later H. destruct H.
Defined.

(** ** Blank include references *)

(** C8, as stated, fails: a profile listing blank include references loads
    normally; the caller receives a tree, not the sentinel. *)
Lemma blank_include_not_rejected :
  load_config flat_pathlib fs_blank_include 1 ["claude"] =
  Some (Return (Some [("mode", VStr "on")])).
Proof. reflexivity. Qed.


(** C8 (amended). The include resolver rejects a blank reference with
    [ValueError], but the loader never hands it one: a blank reference
    anywhere in an [includes] list is skipped and the load goes on as if it
    were not listed. *)
Theorem blank_include_skipped (pl : pathlib) (fs : filesystem)
    (load : path -> visited_set -> loading) (ref : string)
    (before after : list value) (base_path : path) (combined : dict)
    (v : visited_set) :
  is_empty (strip ref) = true ->
  resolve_include_targets pl fs ref base_path = Raise ValueError /\
  load_includes pl fs load (before ++ VStr ref :: after)%list base_path
    combined v =
  load_includes pl fs load (before ++ after)%list base_path combined v.
Proof.
  intros Hblank. split.
  - unfold resolve_include_targets. now rewrite Hblank.
  - revert combined v.
    induction before as [|r rest IH]; intros combined v.
    + cbn [app load_includes]. now rewrite Hblank.
    + cbn [app load_includes]. destruct r; try apply IH.
      destruct (is_empty (strip s)); [apply IH|].
      destruct (resolve_include_targets pl fs s base_path) as [targets|e];
        [|reflexivity].
      destruct (load_targets fs load targets combined v)
        as [[[c v1]|e]|]; try reflexivity.
      apply IH.
Qed.

Lemma blank_include_skipped_witness :
  resolve_include_targets flat_pathlib fs_blank_include "   " "claude.yaml"
    = Raise ValueError /\
  load_includes flat_pathlib fs_blank_include
    (load_profile_tree flat_pathlib fs_blank_include 0)
    ([] ++ VStr "   " :: [VStr ""])%list "claude.yaml" [] ["claude.yaml"] =
  load_includes flat_pathlib fs_blank_include
    (load_profile_tree flat_pathlib fs_blank_include 0)
    ([] ++ [VStr ""])%list "claude.yaml" [] ["claude.yaml"].
Proof.
  apply (blank_include_skipped flat_pathlib fs_blank_include
           (load_profile_tree flat_pathlib fs_blank_include 0) "   "
           [] [VStr ""] "claude.yaml" [] ["claude.yaml"]).
  reflexivity.
Defined.

(** ** Documents that are not mappings *)

Lemma load_config_uncaught (pl : pathlib) (fs : filesystem) (fuel : nat)
    (profiles : list string) (e : exn) :
  load_profiles pl fs fuel profiles [] [] = Some (Raise e) ->
  e <> FileNotFoundError -> e <> YAMLError ->
  load_config pl fs fuel profiles = Some (Raise e).
Proof.
  intros H H1 H2. unfold load_config.
  destruct profiles as [|p ps]; [discriminate|].
  rewrite H. destruct e; congruence.
Qed.

(** C10. A profile whose content parses to a non-empty list or a non-empty
    string makes [load_config] raise ([TypeError], [AttributeError]): these
    are not among the exceptions turned into the sentinel.  A document that
    parses to a falsy value loads as the empty mapping. *)
Theorem non_mapping_document :
  load_config flat_pathlib fs_list_document 1 ["claude"] = Some (Raise TypeError)
  /\ load_config flat_pathlib fs_string_document 1 ["claude"]
     = Some (Raise AttributeError)
  /\ (forall (pl : pathlib) (fs : filesystem) (fuel : nat) (p : path)
             (v : visited_set) (doc : value),
        in_visited (resolve pl p) v = false ->
        open_and_parse fs (resolve pl p) = Return doc ->
        (truthy doc = false ->
         load_profile_tree pl fs (S fuel) p v
         = Some (Return ([], resolve pl p :: v)))
        /\ (truthy doc = true -> (forall d, doc <> VDict d) ->
            exists e, load_profile_tree pl fs (S fuel) p v = Some (Raise e)
                      /\ e <> FileNotFoundError /\ e <> YAMLError))
  /\ (forall (pl : pathlib) (fs : filesystem) (fuel : nat)
             (profiles : list string) (e : exn),
        load_profiles pl fs fuel profiles [] [] = Some (Raise e) ->
        e <> FileNotFoundError -> e <> YAMLError ->
        load_config pl fs fuel profiles = Some (Raise e)).
Proof.
  split; [reflexivity|]. split; [reflexivity|]. split.
  - intros pl fs fuel p v doc Hv Hopen. split.
    + intros Hfalsy. cbn [load_profile_tree]. rewrite Hv, Hopen, Hfalsy.
      reflexivity.
    + intros Htruthy Hnd. cbn [load_profile_tree].
      rewrite Hv, Hopen, Htruthy.
      destruct doc; cbn [pop_includes];
        try (eexists; split; [reflexivity | split; discriminate]).
      now elim (Hnd entries).
  - exact load_config_uncaught.
Qed.

Lemma non_mapping_document_witness :
  load_profile_tree flat_pathlib fs_empty_document 1 "claude.yaml" []
  = Some (Return ([], ["claude.yaml"])).
Proof.
  apply (proj1 (proj1 (proj2 (proj2 non_mapping_document))
                  flat_pathlib fs_empty_document 0 "claude.yaml" [] VNone
                  eq_refl eq_refl)).
  reflexivity.
Defined.

(** ** No partially merged configuration *)

Lemma chain_ok_mono (pl : pathlib) (fs : filesystem) (q : path)
    (v v' : visited_set) :
  incl v v' -> chain_ok pl fs q v -> chain_ok pl fs q v'.
Proof.
  intros Hincl [doc [Hopen Hrefs]]. exists doc. split; [assumption|].
  intros ref Hin Hne. destruct (Hrefs ref Hin Hne) as [targets [Hres Ht]].
  exists targets. split; [assumption|].
  intros t Hint. destruct (Ht t Hint). auto.
Qed.

Lemma closed_run_refl (pl : pathlib) (fs : filesystem) (v : visited_set) :
  closed_run pl fs v v.
Proof. split; [apply incl_refl | now left]. Qed.

Lemma closed_run_trans (pl : pathlib) (fs : filesystem)
    (v0 v1 v2 : visited_set) :
  closed_run pl fs v0 v1 -> closed_run pl fs v1 v2 -> closed_run pl fs v0 v2.
Proof.
  intros [Hi1 Hc1] [Hi2 Hc2]. split; [eapply incl_tran; eassumption|].
  intros q Hq. destruct (Hc2 q Hq) as [H|H]; [|now right].
  destruct (Hc1 q H) as [H'|H']; [now left|].
  right. eapply chain_ok_mono; eassumption.
Qed.

Section LoopsClosed.

Variable pl : pathlib.
Variable fs : filesystem.
Variable load : path -> visited_set -> loading.

Hypothesis load_closed :
  forall p v tree v',
    load p v = Some (Return (tree, v')) ->
    closed_run pl fs v v' /\ In (resolve pl p) v'.

Lemma load_targets_closed (targets : list path) :
  forall combined v c v',
    load_targets fs load targets combined v = Some (Return (c, v')) ->
    closed_run pl fs v v' /\
    forall t, In t targets ->
              path_exists fs t = true /\ In (resolve pl t) v'.
Proof.
  induction targets as [|p rest IH]; intros combined v c v' H;
    cbn [load_targets] in H.
  - inversion H. subst. split; [apply closed_run_refl | intros t []].
  - destruct (path_exists fs p) eqn:Ee; [|discriminate]. cbn [negb] in H.
    destruct (load p v) as [[[tree v1]|e]|] eqn:El; try discriminate.
    destruct (merge_configs combined (VDict tree)) as [c1|e]; [|discriminate].
    destruct (load_closed p v tree v1 El) as [Hc1 Hp].
    destruct (IH c1 v1 c v' H) as [Hc2 Hrest].
    split; [eapply closed_run_trans; eassumption|].
    intros t [->|Ht]; [|now apply Hrest].
    split; [assumption|]. now apply (proj1 Hc2).
Qed.

Lemma load_includes_closed (refs : list value) (base_path : path) :
  forall combined v c v',
    load_includes pl fs load refs base_path combined v
      = Some (Return (c, v')) ->
    closed_run pl fs v v' /\
    forall ref, In (VStr ref) refs -> is_empty (strip ref) = false ->
      exists targets,
        resolve_include_targets pl fs ref base_path = Return targets /\
        forall t, In t targets ->
                  path_exists fs t = true /\ In (resolve pl t) v'.
Proof.
  induction refs as [|r rest IH]; intros combined v c v' H;
    cbn [load_includes] in H.
  - inversion H. subst. split; [apply closed_run_refl | intros ref []].
  - assert (Hskip :
      load_includes pl fs load rest base_path combined v
        = Some (Return (c, v')) ->
      (forall ref, VStr ref = r -> is_empty (strip ref) = true) ->
      closed_run pl fs v v' /\
      forall ref, In (VStr ref) (r :: rest) -> is_empty (strip ref) = false ->
        exists targets,
          resolve_include_targets pl fs ref base_path = Return targets /\
          forall t, In t targets ->
                    path_exists fs t = true /\ In (resolve pl t) v').
    { intros Hr Hblank. destruct (IH combined v c v' Hr) as [Hc Hrefs].
      split; [assumption|].
      intros ref [Heq|Hin] Hne; [|now apply Hrefs].
      rewrite (Hblank ref (eq_sym Heq)) in Hne. discriminate. }
    destruct r; try (apply Hskip; [assumption | discriminate]).
    destruct (is_empty (strip s)) eqn:Es.
    { apply Hskip; [assumption|]. intros ref Heq. inversion Heq. now subst. }
    clear Hskip.
    destruct (resolve_include_targets pl fs s base_path) as [targets|e] eqn:Er;
      [|discriminate].
    destruct (load_targets fs load targets combined v)
      as [[[c1 v1]|e]|] eqn:Et; try discriminate.
    destruct (load_targets_closed targets combined v c1 v1 Et) as [Hc1 Ht].
    destruct (IH c1 v1 c v' H) as [Hc2 Hrefs].
    split; [eapply closed_run_trans; eassumption|].
    intros ref [Heq|Hin] Hne; [|now apply Hrefs].
    inversion Heq. subst ref. exists targets. split; [assumption|].
    intros t Hint. destruct (Ht t Hint) as [He Hv]. split; [assumption|].
    now apply (proj1 Hc2).
Qed.

End LoopsClosed.

Lemma pop_includes_refs (doc inc : value) (body : dict) (refs : list value) :
  pop_includes (document_or_empty doc) = Return (inc, body) ->
  iterate (if truthy inc then inc else VList []) = Return refs ->
  refs = doc_include_refs doc.
Proof.
  unfold doc_include_refs. intros Hpop Hit.
  destruct (document_or_empty doc); try discriminate.
  cbn [pop_includes] in Hpop. inversion Hpop. subst.
  unfold include_refs. now rewrite Hit.
Qed.

Lemma load_profile_tree_closed (pl : pathlib) (fs : filesystem) (fuel : nat) :
  forall p v tree v',
    load_profile_tree pl fs fuel p v = Some (Return (tree, v')) ->
    closed_run pl fs v v' /\ In (resolve pl p) v'.
Proof.
  induction fuel as [|fuel IH]; intros p v tree v' H; [discriminate|].
  cbn [load_profile_tree] in H.
  destruct (in_visited (resolve pl p) v) eqn:Ev.
  { inversion H. subst. split; [apply closed_run_refl|].
    now apply in_visited_In. }
  destruct (open_and_parse fs (resolve pl p)) as [doc|e] eqn:Eo;
    [|discriminate].
  fold (document_or_empty doc) in H.
  destruct (pop_includes (document_or_empty doc)) as [[inc body]|e] eqn:Ep;
    [|discriminate].
  destruct (iterate (if truthy inc then inc else VList [])) as [refs|e] eqn:Ei;
    [|discriminate].
  destruct (load_includes pl fs (load_profile_tree pl fs fuel) refs
              (resolve pl p) [] (resolve pl p :: v))
    as [[[combined v1]|e]|] eqn:El; try discriminate.
  destruct (merge_configs combined (VDict body)) as [c|e]; [|discriminate].
  inversion H. subst c v1.
  destruct (load_includes_closed pl fs (load_profile_tree pl fs fuel) IH
              refs (resolve pl p) [] (resolve pl p :: v) combined v' El)
    as [[Hincl Hclosed] Hrefs].
  assert (Hself : In (resolve pl p) v') by (apply Hincl; now left).
  split; [|assumption]. split.
  - intros q Hq. apply Hincl. now right.
  - intros q Hq. destruct (Hclosed q Hq) as [[Heq|Hin]|Hok];
      [|now left | now right].
    subst q. right. exists doc. split; [assumption|].
    rewrite <- (pop_includes_refs doc inc body refs Ep Ei). exact Hrefs.
Qed.

Lemma load_profiles_closed (pl : pathlib) (fs : filesystem) (fuel : nat)
    (profiles : list string) :
  forall config v c v',
    load_profiles pl fs fuel profiles config v = Some (Return (c, v')) ->
    closed_run pl fs v v' /\ profiles_loaded pl fs profiles v'.
Proof.
  induction profiles as [|profile rest IH]; intros config v c v' H;
    cbn [load_profiles] in H.
  - inversion H. subst. split; [apply closed_run_refl | intros q []].
  - destruct (resolve_profile_path pl profile) as [profile_path|e] eqn:Er;
      [|discriminate].
    destruct (path_exists fs profile_path) eqn:Ee; [|discriminate].
    cbn [negb] in H.
    destruct (load_profile_tree pl fs fuel profile_path v)
      as [[[tree v1]|e]|] eqn:El; try discriminate.
    destruct (merge_configs config (VDict tree)) as [c1|e]; [|discriminate].
    destruct (load_profile_tree_closed pl fs fuel profile_path v tree v1 El)
      as [Hc1 Hp].
    destruct (IH c1 v1 c v' H) as [Hc2 Hrest].
    split; [eapply closed_run_trans; eassumption|].
    intros q [->|Hq]; [|now apply Hrest].
    exists profile_path. split; [assumption|]. split; [assumption|].
    now apply (proj1 Hc2).
Qed.

(** C1, as stated, fails: with a first profile whose document is a list,
    [load_config] raises [TypeError] although the second named profile has
    no file. *)
Lemma missing_profile_can_raise :
  path_exists fs_list_document "nonexistent.yaml" = false /\
  resolve_profile_path flat_pathlib "nonexistent" = Return "nonexistent.yaml" /\
  load_config flat_pathlib fs_list_document 1 ["claude"; "nonexistent"]
  = Some (Raise TypeError).
Proof. repeat split; reflexivity. Qed.

(** C1 (amended). [load_config] returns a tree only when every named
    profile has an existing file that was loaded and every file of the
    chain (every visited file) parsed and had each non-blank include
    reference resolved to existing targets that were loaded in turn: no
    partially merged tree is returned.  A [FileNotFoundError] or
    [YAMLError] escaping the traversal becomes the sentinel; so does, in
    particular, a missing or unparsable first profile. *)
Theorem no_partial_configuration (pl : pathlib) (fs : filesystem) (fuel : nat)
    (profiles : list string) :
  (forall cfg,
     load_config pl fs fuel profiles = Some (Return (Some cfg)) ->
     exists merged visited,
       load_profiles pl fs fuel profiles [] [] = Some (Return (merged, visited))
       /\ cfg = normalize_directives merged
       /\ profiles_loaded pl fs profiles visited
       /\ forall q, In q visited -> chain_ok pl fs q visited)
  /\ (forall e,
        load_profiles pl fs fuel profiles [] [] = Some (Raise e) ->
        e = FileNotFoundError \/ e = YAMLError ->
        load_config pl fs fuel profiles = Some (Return None))
  /\ (forall profile rest profile_path,
        profiles = profile :: rest ->
        resolve_profile_path pl profile = Return profile_path ->
        path_exists fs profile_path = false ->
        load_config pl fs fuel profiles = Some (Return None))
  /\ (forall profile rest profile_path fuel',
        profiles = profile :: rest -> fuel = S fuel' ->
        resolve_profile_path pl profile = Return profile_path ->
        is_dir fs (resolve pl profile_path) = false ->
        lookup (fs_files fs) (resolve pl profile_path) = Some ParseError ->
        load_config pl fs fuel profiles = Some (Return None)).
Proof.
  split; [|split; [|split]].
  - intros cfg H.
    destruct (load_config_success pl fs fuel profiles cfg H)
      as [merged [visited [Hm Hcfg]]].
    exists merged, visited. split; [assumption|]. split; [assumption|].
    destruct (load_profiles_closed pl fs fuel profiles [] [] merged visited Hm)
      as [[_ Hclosed] Hloaded].
    split; [assumption|].
    intros q Hq. destruct (Hclosed q Hq) as [[]|Hok]. exact Hok.
  - intros e H He. unfold load_config.
    destruct profiles as [|p ps]; [reflexivity|].
    rewrite H. destruct He; subst e; reflexivity.
  - intros profile rest profile_path Hp Hr He. subst profiles.
    unfold load_config. cbn [load_profiles]. rewrite Hr, He. reflexivity.
  - intros profile rest profile_path fuel' Hp Hf Hr Hd Hl. subst profiles fuel.
    unfold load_config. cbn [load_profiles]. rewrite Hr.
    destruct (path_exists fs profile_path); [|reflexivity].
    cbn [negb load_profile_tree in_visited existsb].
    unfold open_and_parse. rewrite Hd, Hl. reflexivity.
Qed.

(** The instance of the specification: the profile list [["nonexistent"]]
    yields the sentinel. *)
Lemma no_partial_configuration_witness :
  load_config flat_pathlib fs_list_document 1 ["nonexistent"]
  = Some (Return None).
Proof.
  apply (proj1 (proj2 (proj2
           (no_partial_configuration flat_pathlib fs_list_document 1
              ["nonexistent"])))
           "nonexistent" [] "nonexistent.yaml").
  - reflexivity.
  - reflexivity.
  - reflexivity.
Defined.

(** ** Merging with the empty tree *)

Lemma dict_get_In (d : dict) (k : string) (v : value) :
  dict_get d k = Some v -> In (k, v) d.
Proof.
  induction d as [|[q w] rest IH]; simpl; [discriminate|].
  destruct (String.eqb_spec q k) as [->|Hne].
  - intros H. inversion H. now left.
  - intros H. right. now apply IH.
Qed.

Lemma dict_get_absent (d : dict) (k : string) :
  ~ In k (dict_keys d) -> dict_get d k = None.
Proof.
  induction d as [|[q w] rest IH]; simpl; [reflexivity|].
  intros H. destruct (String.eqb_spec q k) as [->|Hne]; [tauto|].
  apply IH. tauto.
Qed.

Lemma dict_get_present (d : dict) (k : string) :
  dict_get d k = None -> ~ In k (dict_keys d).
Proof.
  induction d as [|[q w] rest IH]; simpl; [tauto|].
  destruct (String.eqb_spec q k) as [->|Hne]; [discriminate|].
  intros H [Hq|Hin]; [congruence | now apply IH].
Qed.

Lemma expanded_fold (dv : dict) :
  forall acc,
    NoDup (dict_keys acc ++ dict_keys dv) ->
    (forall raw directive, In (raw, directive) dv ->
       directive <> VNone /\
       expand_flag_keys raw directive = [raw] /\
       forall body, directive = VDict body ->
                    clean_directive_config body = body) ->
    merge_directives_dict acc dv = (acc ++ dv)%list.
Proof.
  induction dv as [|[raw directive] rest IH]; intros acc Hnd Hdv.
  - now rewrite app_nil_r.
  - rewrite merge_directives_dict_cons.
    destruct (Hdv raw directive (or_introl eq_refl)) as [Hnn [Hkeys Hclean]].
    assert (Hstep : merge_directive_dict acc raw directive
                    = (acc ++ [(raw, directive)])%list).
    { unfold merge_directive_dict. rewrite Hkeys.
      assert (Hfresh : ~ In raw (dict_keys acc)).
      { simpl in Hnd. apply NoDup_remove_2 in Hnd.
        rewrite in_app_iff in Hnd. tauto. }
      destruct directive; try (now elim Hnn);
        cbn [assign_keys]; try (now apply dict_set_fresh).
      rewrite (Hclean entries eq_refl). now apply dict_set_fresh. }
    rewrite Hstep, IH.
    + now rewrite <- app_assoc.
    + unfold dict_keys in *. rewrite map_app. simpl.
      rewrite <- app_assoc. exact Hnd.
    + intros r d Hin. apply Hdv. now right.
Qed.

Lemma expanded_directives_fixed (dv : dict) :
  expanded_directives dv -> merge_directives_dict [] dv = dv.
Proof. intros [Hnd Hdv]. now apply (expanded_fold dv []). Qed.

(** The generic loop on an overlay with distinct keys and no null, starting
    from a result that binds none of the overlay's generic keys. *)
Lemma generic_merge_plain (merge : dict -> value -> outcome dict)
    (items : dict) :
  NoDup (dict_keys items) ->
  (forall k v, In (k, v) items -> k <> "directives" ->
     v <> VNone /\
     forall sub, v = VDict sub ->
       exists m, merge [] (VDict sub) = Return m /\
                 same_value (VDict m) (VDict sub)) ->
  forall result,
    (forall k, In k (dict_keys items) -> k <> "directives" ->
               dict_get result k = None) ->
    exists r,
      generic_merge merge items result = Return r /\
      forall k,
        (k = "directives" \/ dict_get items k = None ->
         dict_get r k = dict_get result k) /\
        (k <> "directives" ->
         forall v, dict_get items k = Some v ->
                   exists v', dict_get r k = Some v' /\ same_value v' v).
Proof.
  induction items as [|[key v] rest IH]; intros Hnd Hitems result Hres.
  - exists result. split; [reflexivity|]. intros k. split; [reflexivity|].
    intros _ w H. discriminate.
  - simpl in Hnd. apply NoDup_cons_iff in Hnd. destruct Hnd as [Hkey Hnd].
    assert (Hrest : forall k w, In (k, w) rest -> k <> "directives" ->
               w <> VNone /\
               forall sub, w = VDict sub ->
                 exists m, merge [] (VDict sub) = Return m /\
                           same_value (VDict m) (VDict sub))
      by (intros k w Hin; apply Hitems; now right).
    cbn [generic_merge].
    destruct (String.eqb_spec key "directives") as [->|Hne].
    + destruct (IH Hnd Hrest result) as [r [Hr Hk]].
      { intros k Hin. apply Hres. now right. }
      exists r. split; [assumption|]. intros k. split.
      * intros [->|Hnone]; [now apply Hk; left|].
        cbn [dict_get] in Hnone. destruct (String.eqb_spec "directives" k);
          [discriminate|]. apply Hk. now right.
      * intros Hkd w Hw. cbn [dict_get] in Hw.
        destruct (String.eqb_spec "directives" k); [congruence|].
        now apply Hk.
    + destruct (Hitems key v (or_introl eq_refl) Hne) as [Hnn Hsub].
      assert (Hnew : forall w,
                exists r,
                  generic_merge merge rest (dict_set result key w) = Return r /\
                  forall k,
                    (k = "directives" \/ dict_get ((key, v) :: rest) k = None ->
                     dict_get r k = dict_get result k) /\
                    (k <> "directives" ->
                     forall u, dict_get ((key, v) :: rest) k = Some u ->
                       exists u', dict_get r k = Some u' /\
                                  (same_value w v -> same_value u' u))).
      { intros w. destruct (IH Hnd Hrest (dict_set result key w)) as [r [Hr Hk]].
        { intros k Hin Hkd. rewrite dict_get_set_other by congruence.
          apply Hres; [now right | assumption]. }
        exists r. split; [assumption|]. intros k. split.
        - intros [->|Hnone].
          + rewrite (proj1 (Hk "directives")) by now left.
            now apply dict_get_set_other.
          + cbn [dict_get] in Hnone. destruct (String.eqb_spec key k); [discriminate|].
            rewrite (proj1 (Hk k)) by now right.
            now apply dict_get_set_other.
        - intros Hkd u Hu. cbn [dict_get] in Hu.
          destruct (String.eqb_spec key k) as [->|Hkk].
          + inversion Hu. subst u. exists w.
            rewrite (proj1 (Hk k)) by (right; now apply dict_get_absent).
            split; [apply dict_get_set_same | tauto].
          + destruct (proj2 (Hk k) Hkd u Hu) as [u' [Hu' Hs]].
            exists u'. tauto. }
      assert (Hfin : forall w, same_value w v ->
                exists r,
                  generic_merge merge rest (dict_set result key w) = Return r /\
                  forall k,
                    (k = "directives" \/ dict_get ((key, v) :: rest) k = None ->
                     dict_get r k = dict_get result k) /\
                    (k <> "directives" ->
                     forall u, dict_get ((key, v) :: rest) k = Some u ->
                       exists u', dict_get r k = Some u' /\ same_value u' u)).
      { intros w Hw. destruct (Hnew w) as [r [Hr Hk]].
        exists r. split; [assumption|]. intros k. split; [apply Hk|].
        intros Hkd u Hu. destruct (proj2 (Hk k) Hkd u Hu) as [u' [Hu' Hs]].
        exists u'. tauto. }
      destruct v; try (apply Hfin; apply same_refl).
      * now elim Hnn.
      * assert (Hex : existing_mapping result key = []).
        { unfold existing_mapping. rewrite Hres; [reflexivity | now left | assumption]. }
        rewrite Hex. destruct (Hsub entries eq_refl) as [m [Hm Hs]].
        rewrite Hm. cbn [bind]. now apply Hfin.
Qed.

Lemma In_dict_get (d : dict) (k : string) (v : value) :
  NoDup (dict_keys d) -> In (k, v) d -> dict_get d k = Some v.
Proof.
  induction d as [|[q w] rest IH]; simpl; [tauto|].
  intros Hnd [Heq|Hin].
  - inversion Heq. subst. now rewrite String.eqb_refl.
  - apply NoDup_cons_iff in Hnd. destruct Hnd as [Hq Hnd].
    destruct (String.eqb_spec q k) as [->|Hne].
    + elim Hq. change k with (fst (k, v)). now apply in_map.
    + now apply IH.
Qed.

Lemma In_dict_keys (d : dict) (k : string) (v : value) :
  In (k, v) d -> In k (dict_keys d).
Proof. intros H. change k with (fst (k, v)). now apply in_map. Qed.

Lemma merge_empty_onto_plain (overlay : value) :
  forall d, overlay = VDict d -> plain d ->
    exists r, merge_configs [] overlay = Return r /\
              same_value (VDict r) overlay.
Proof.
  induction overlay as [| | | |items _|entries IH] using value_nested_ind;
    intros d Heq Hplain; try discriminate.
  inversion Heq. subst d. clear Heq.
  destruct Hplain as [d Hnd Hdir Hgen].
  rewrite merge_configs_unfold.
  assert (Hsec : exists r1,
            merge_directives_section [] (VDict d) = Return r1 /\
            dict_get r1 "directives" = dict_get d "directives" /\
            forall k, k <> "directives" -> dict_get r1 k = None).
  { destruct (dict_get d "directives") as [v|] eqn:E.
    - destruct (Hdir v (dict_get_In _ _ _ E)) as [dv [-> Hexp]].
      rewrite (directives_section_ok [] d dv) by (exact I || assumption).
      eexists. split; [reflexivity|].
      cbn [base_directives dict_get]. rewrite expanded_directives_fixed
        by assumption.
      split; [reflexivity|]. intros k Hk. cbn [dict_set dict_get].
      destruct (String.eqb_spec "directives" k); [congruence | reflexivity].
    - exists []. split; [|split; [reflexivity | reflexivity]].
      apply directives_section_skip. intros dov H. congruence. }
  destruct Hsec as [r1 [Hr1 [Hd1 Ho1]]]. rewrite Hr1. cbn [bind].
  destruct (generic_merge_plain merge_configs d Hnd) with (result := r1)
    as [r [Hr Hk]].
  - intros k v Hin Hkd. destruct (Hgen k v Hin Hkd) as [Hnn Hsub].
    split; [assumption|]. intros sub ->.
    rewrite Forall_forall in IH.
    apply (IH (k, VDict sub) Hin sub eq_refl). now apply Hsub.
  - intros k _ Hkd. now apply Ho1.
  - exists r. split; [assumption|]. apply same_dict. intros k.
    destruct (string_dec k "directives") as [->|Hkd].
    + rewrite (proj1 (Hk "directives")) by now left. rewrite Hd1.
      destruct (dict_get d "directives") as [v|]; [|now left].
      right. exists v, v. repeat split. apply same_refl.
    + destruct (dict_get d k) as [v|] eqn:E.
      * right. destruct (proj2 (Hk k) Hkd v E) as [v' [Hv' Hs]].
        exists v', v. tauto.
      * left. rewrite (proj1 (Hk k)) by now right.
        split; [now apply Ho1 | reflexivity].
Qed.

(** C9, as stated, fails: overlaying a tree that holds a null onto the
    empty tree drops the key, so the result is not equal to the tree. *)
Lemma merge_onto_empty_drops_null :
  merge_configs [] (VDict [("a", VNone)]) = Return [] /\
  ~ same_value (VDict []) (VDict [("a", VNone)]).
Proof.
  split; [reflexivity|]. intros H. inversion H as [|d1 d2 Hk]; subst.
  destruct (Hk "a") as [[_ Hnone]|[v1 [v2 [Hsome _]]]]; discriminate.
Qed.

(** C9 (amended). [merge_configs(A, {})] returns [A] itself for every tree.
    [merge_configs({}, A)] returns a tree equal to [A] whenever [A] is
    plain: no null outside [directives] and every [directives] map already
    expanded, in [A] and in its nested mappings. *)
Theorem merge_with_empty (A : dict) :
  merge_configs A (VDict []) = Return A /\
  (plain A ->
   exists r, merge_configs [] (VDict A) = Return r /\
             same_value (VDict r) (VDict A)).
Proof.
  split; [reflexivity|].
  intros Hplain. now apply (merge_empty_onto_plain (VDict A) A).
Qed.

Lemma plain_tree_plain : plain plain_tree.
Proof.
  constructor.
  - repeat constructor; simpl; intuition discriminate.
  - intros v [H|[H|[H|[]]]]; inversion H; subst.
    eexists. split; [reflexivity|]. split.
    + repeat constructor; simpl; intuition discriminate.
    + intros raw directive [H1|[H1|[]]]; inversion H1; subst;
        (split; [discriminate|]); (split; [reflexivity|]);
        intros body Hb; inversion Hb; reflexivity.
  - intros k v [H|[H|[H|[]]]] Hk; inversion H; subst.
    + split; [discriminate | intros sub Hs; discriminate].
    + now elim Hk.
    + split; [discriminate|]. intros sub Hs. inversion Hs. subst.
      constructor.
      * repeat constructor; simpl; intuition discriminate.
      * intros v [H1|[]]. inversion H1.
      * intros k' v' [H1|[]] _. inversion H1; subst.
        split; [discriminate | intros sub' Hs'; discriminate].
Qed.

Lemma merge_with_empty_witness :
  exists r, merge_configs [] (VDict plain_tree) = Return r /\
            same_value (VDict r) (VDict plain_tree).
Proof.
  apply (proj2 (merge_with_empty plain_tree)).
  apply plain_tree_plain.
Defined.

(** ** Sharing between the overlay and the result *)

(** C2. On the heap, a directive that is a sequence is stored in the result
    by reference: after the merge the result's [directives] binds [--x] to
    the very list the overlay binds it to (address 2), so emptying that
    list through the result changes what the overlay holds.  Under a
    generic key the same list is copied to a fresh address. *)
Theorem sequence_directive_is_shared :
  (exists h' result directives,
     Aliasing.merge_configs 5 Aliasing.shared_heap
       (Aliasing.RRef 3) (Aliasing.RRef 0)
     = Some (Return (h', Aliasing.RRef result)) /\
     Aliasing.read h' result
     = Some (Aliasing.ODict [("directives", Aliasing.RRef directives)]) /\
     Aliasing.read h' directives
     = Some (Aliasing.ODict [("--x", Aliasing.RRef 2)]) /\
     Aliasing.read Aliasing.shared_heap 1
     = Some (Aliasing.ODict [("--x", Aliasing.RRef 2)]) /\
     Aliasing.view 3 (Aliasing.write h' 2 (Aliasing.OList [])) (Aliasing.RRef 0)
     <> Aliasing.view 3 Aliasing.shared_heap (Aliasing.RRef 0))
  /\
  (exists h' result fresh,
     Aliasing.merge_configs 5 Aliasing.generic_heap
       (Aliasing.RRef 2) (Aliasing.RRef 0)
     = Some (Return (h', Aliasing.RRef result)) /\
     Aliasing.read h' result
     = Some (Aliasing.ODict [("order", Aliasing.RRef fresh)]) /\
     fresh <> 1).
Proof.
  split.
  - eexists. exists 4, 5. split; [reflexivity|].
    repeat split; try reflexivity. discriminate.
  - eexists. exists 3, 4. split; [reflexivity|].
    split; [reflexivity | discriminate].
Qed.

(** The tree model agrees with the heap model on this input. *)
Example sequence_directive_tree :
  merge_configs []
    (VDict [("directives",
             VDict [("--x", VList [VStr "first"; VStr "second"])])])
  = Return [("directives",
             VDict [("--x", VList [VStr "first"; VStr "second"])])].
Proof. reflexivity. Qed.

(** * Further properties of the engine *)

(** ** The merger, key by key *)

(** The last entry of the overlay's [directives] that touches a key decides
    what the merged map holds there: nothing after a null, the cleaned body
    after a mapping, the value itself otherwise. *)
Theorem last_directive_entry_wins
    (base ov dov pre post : dict) (raw k : string) (directive : value) :
  mergeable base ->
  dict_get ov "directives" = Some (VDict dov) ->
  dov = (pre ++ (raw, directive) :: post)%list ->
  In k (expand_flag_keys raw directive) ->
  (forall flag later, In (flag, later) post ->
     ~ In k (expand_flag_keys flag later) /\ (later = VNone -> k <> flag)) ->
  exists r rd,
    merge_configs base (VDict ov) = Return r /\
    dict_get r "directives" = Some (VDict rd) /\
    dict_get rd k = own_value directive.
Proof.
  intros Hm Hov Hdov Hk Hpost.
  destruct (merge_configs_directives base ov dov Hm Hov) as [r [Hr [_ Hd]]].
  exists r. eexists. split; [exact Hr|]. split; [exact Hd|].
  subst dov. rewrite merge_directives_dict_app, merge_directives_dict_cons.
  rewrite merge_directives_dict_other by assumption.
  now apply own_step_value.
Qed.

Lemma last_directive_entry_wins_witness :
  exists r rd,
    merge_configs [("directives", VDict [("--x", VInt 1)])]
      (VDict [("directives", VDict [("--x | --y", VStr "on")])]) = Return r /\
    dict_get r "directives" = Some (VDict rd) /\
    dict_get rd "--y" = own_value (VStr "on").
Proof.
  apply (last_directive_entry_wins
           [("directives", VDict [("--x", VInt 1)])]
           [("directives", VDict [("--x | --y", VStr "on")])]
           [("--x | --y", VStr "on")] [] [] "--x | --y" "--y" (VStr "on")).
  - apply mergeable_flat_directives.
  - reflexivity.
  - reflexivity.
  - simpl. tauto.
  - intros flag later H. destruct H.
Defined.

(** A key no entry of the overlay's [directives] touches keeps what the
    base held under it: directives merge key by key, not map by map. *)
Theorem untouched_directive_kept (base ov dov : dict) (k : string) :
  mergeable base ->
  dict_get ov "directives" = Some (VDict dov) ->
  (forall flag directive, In (flag, directive) dov ->
     ~ In k (expand_flag_keys flag directive) /\
     (directive = VNone -> k <> flag)) ->
  exists r rd,
    merge_configs base (VDict ov) = Return r /\
    dict_get r "directives" = Some (VDict rd) /\
    dict_get rd k = dict_get (base_directives base) k.
Proof.
  intros Hm Hov Hdov.
  destruct (merge_configs_directives base ov dov Hm Hov) as [r [Hr [_ Hd]]].
  exists r. eexists. split; [exact Hr|]. split; [exact Hd|].
  now apply merge_directives_dict_other.
Qed.

Lemma untouched_directive_kept_witness :
  exists r rd,
    merge_configs [("directives", VDict [("--x", VInt 1)])]
      (VDict [("directives", VDict [("--y", VNone)])]) = Return r /\
    dict_get r "directives" = Some (VDict rd) /\
    dict_get rd "--x"
    = dict_get (base_directives [("directives", VDict [("--x", VInt 1)])]) "--x".
Proof.
  apply (untouched_directive_kept
           [("directives", VDict [("--x", VInt 1)])]
           [("directives", VDict [("--y", VNone)])]
           [("--y", VNone)] "--x").
  - apply mergeable_flat_directives.
  - reflexivity.
  - intros flag directive [H|[]]. inversion H. subst.
    split; [|discriminate]. simpl. intros [H1|[]]. discriminate.
Defined.

Lemma existing_mapping_set_other (d : dict) (k k' : string) (v : value) :
  k <> k' -> existing_mapping (dict_set d k v) k' = existing_mapping d k'.
Proof.
  intros H. unfold existing_mapping. now rewrite dict_get_set_other.
Qed.

Lemma existing_mapping_pop_other (d : dict) (k k' : string) :
  k <> k' -> existing_mapping (dict_pop d k) k' = existing_mapping d k'.
Proof.
  intros H. unfold existing_mapping. now rewrite dict_get_pop_other.
Qed.

Lemma generic_outcome_ext (b1 b2 : dict) (k : string) (o r : option value) :
  dict_get b1 k = dict_get b2 k ->
  generic_outcome b1 k o r -> generic_outcome b2 k o r.
Proof.
  intros H. unfold generic_outcome, existing_mapping. now rewrite H.
Qed.

Lemma generic_merge_contract (items : dict) :
  NoDup (dict_keys items) ->
  forall result r k,
    generic_merge merge_configs items result = Return r ->
    k <> "directives" ->
    generic_outcome result k (dict_get items k) (dict_get r k).
Proof.
  induction items as [|[key v] rest IH]; intros Hnd result r k Hr Hk.
  - inversion Hr. reflexivity.
  - simpl in Hnd. apply NoDup_cons_iff in Hnd. destruct Hnd as [Hkey Hnd].
    cbn [generic_merge] in Hr. cbn [dict_get].
    destruct (String.eqb_spec key "directives") as [->|Hne].
    + destruct (String.eqb_spec "directives" k); [congruence|].
      now apply IH.
    + assert (Hstep : forall result',
                generic_merge merge_configs rest result' = Return r ->
                (key <> k -> dict_get result' k = dict_get result k) ->
                (key = k ->
                 generic_outcome result k (Some v) (dict_get result' k)) ->
                generic_outcome result k
                  (if String.eqb key k then Some v else dict_get rest k)
                  (dict_get r k)).
      { intros result' Hr' Hother Hsame.
        pose proof (IH Hnd result' r k Hr' Hk) as Hrest.
        destruct (String.eqb_spec key k) as [->|Hkk].
        - rewrite (dict_get_absent rest k Hkey) in Hrest.
          unfold generic_outcome in Hrest at 1. rewrite Hrest.
          now apply Hsame.
        - eapply generic_outcome_ext; [|exact Hrest]. now apply Hother. }
      destruct v.
      * apply (Hstep _ Hr).
        -- intros Hkk. now apply dict_get_pop_other.
        -- intros <-. cbn. apply dict_get_pop_same.
      * apply (Hstep _ Hr).
        -- intros Hkk. now apply dict_get_set_other.
        -- intros <-. cbn. apply dict_get_set_same.
      * apply (Hstep _ Hr).
        -- intros Hkk. now apply dict_get_set_other.
        -- intros <-. cbn. apply dict_get_set_same.
      * apply (Hstep _ Hr).
        -- intros Hkk. now apply dict_get_set_other.
        -- intros <-. cbn. apply dict_get_set_same.
      * apply (Hstep _ Hr).
        -- intros Hkk. now apply dict_get_set_other.
        -- intros <-. cbn. apply dict_get_set_same.
      * destruct (merge_configs (existing_mapping result key) (VDict entries))
          as [m|e] eqn:Em; [|discriminate]. cbn [bind] in Hr.
        apply (Hstep _ Hr).
        -- intros Hkk. now apply dict_get_set_other.
        -- intros <-. cbn. exists m. split; [assumption|].
           apply dict_get_set_same.
Qed.

Lemma directives_section_other (base : dict) (overlay : value) (r1 : dict)
    (k : string) :
  merge_directives_section base overlay = Return r1 ->
  k <> "directives" ->
  dict_get r1 k = dict_get base k.
Proof.
  intros H Hk. unfold merge_directives_section in H.
  destruct overlay; try (inversion H; reflexivity).
  destruct (dict_get entries "directives") as [v|];
    [|inversion H; reflexivity].
  destruct v; try (inversion H; reflexivity).
  unfold setdefault_directives in H.
  destruct (dict_get base "directives") as [dv|].
  - destruct (merge_directives dv entries0) as [dv'|e]; [|discriminate].
    inversion H. apply dict_get_set_other. congruence.
  - destruct (merge_directives (VDict []) entries0) as [dv'|e]; [|discriminate].
    inversion H. rewrite !dict_get_set_other by congruence. reflexivity.
Qed.

(** The generic half of the merger: under any key other than [directives],
    an overlay with distinct keys deletes on null, merges mapping into
    mapping, replaces on anything else, and leaves alone what it does not
    name. *)
Theorem generic_key_contract (base ov : dict) (k : string) :
  mergeable base ->
  NoDup (dict_keys ov) ->
  k <> "directives" ->
  exists r,
    merge_configs base (VDict ov) = Return r /\
    generic_outcome base k (dict_get ov k) (dict_get r k).
Proof.
  intros Hm Hnd Hk.
  destruct (merge_configs_mergeable (VDict ov) base Hm) as [r [Hr _]].
  exists r. split; [assumption|].
  rewrite merge_configs_unfold in Hr.
  destruct (merge_directives_section base (VDict ov)) as [r1|e] eqn:E1;
    [|discriminate].
  cbn [bind] in Hr.
  eapply generic_outcome_ext.
  - apply (directives_section_other base (VDict ov) r1 k E1 Hk).
  - now apply generic_merge_contract.
Qed.

Lemma generic_key_contract_witness :
  exists r,
    merge_configs [("mode", VStr "slow"); ("hook", VDict [("a", VInt 1)])]
      (VDict [("mode", VNone); ("hook", VDict [("b", VInt 2)])]) = Return r /\
    generic_outcome [("mode", VStr "slow"); ("hook", VDict [("a", VInt 1)])]
      "hook"
      (dict_get [("mode", VNone); ("hook", VDict [("b", VInt 2)])] "hook")
      (dict_get r "hook").
Proof.
  apply (generic_key_contract
           [("mode", VStr "slow"); ("hook", VDict [("a", VInt 1)])]
           [("mode", VNone); ("hook", VDict [("b", VInt 2)])] "hook").
  - constructor; [exact I|]. intros q sub Hq H. unfold dict_get in H.
    destruct (String.eqb_spec "mode" q); [discriminate|].
    destruct (String.eqb_spec "hook" q); [|discriminate].
    inversion H. constructor; [exact I|].
    intros q' sub' _ H'. unfold dict_get in H'.
    destruct (String.eqb_spec "a" q'); discriminate.
  - repeat constructor; simpl; intuition discriminate.
  - discriminate.
Defined.

(** ** What the loader hands to the merger and to the hook *)

Lemma load_profile_tree_mergeable (pl : pathlib) (fs : filesystem) (fuel : nat)
    (p : path) (v v' : visited_set) (tree : dict) :
  load_profile_tree pl fs fuel p v = Some (Return (tree, v')) ->
  mergeable tree.
Proof.
  destruct fuel as [|fuel]; [discriminate|]. cbn [load_profile_tree].
  destruct (in_visited (resolve pl p) v).
  { intros H. inversion H. apply mergeable_nil. }
  destruct (open_and_parse fs (resolve pl p)) as [doc|e]; [|discriminate].
  destruct (pop_includes _) as [[inc body]|e]; [|discriminate].
  destruct (iterate _) as [refs|e]; [|discriminate].
  destruct (load_includes pl fs (load_profile_tree pl fs fuel) refs
              (resolve pl p) [] (resolve pl p :: v))
    as [[[combined v1]|e]|] eqn:E; try discriminate.
  destruct (merge_configs combined (VDict body)) as [c|e] eqn:Em;
    [|discriminate].
  intros H. inversion H. subst.
  eapply merge_configs_returns_mergeable; [|exact Em].
  eapply load_includes_mergeable; [apply mergeable_nil | exact E].
Qed.

Lemma load_profiles_mergeable (pl : pathlib) (fs : filesystem) (fuel : nat)
    (profiles : list string) :
  forall config v c v',
    mergeable config ->
    load_profiles pl fs fuel profiles config v = Some (Return (c, v')) ->
    mergeable c.
Proof.
  induction profiles as [|profile rest IH]; intros config v c v' Hm H;
    cbn [load_profiles] in H.
  - inversion H. now subst.
  - destruct (resolve_profile_path pl profile) as [pp|e]; [|discriminate].
    destruct (negb (path_exists fs pp)); [discriminate|].
    destruct (load_profile_tree pl fs fuel pp v) as [[[tree v1]|e]|];
      try discriminate.
    destruct (merge_configs config (VDict tree)) as [c1|e] eqn:Em;
      [|discriminate].
    eapply IH; [|exact H]. eapply merge_configs_returns_mergeable; eassumption.
Qed.

Lemma normalize_directives_mergeable (config : dict) :
  mergeable config -> mergeable (normalize_directives config).
Proof.
  intros Hm. unfold normalize_directives.
  destruct (dict_get config "directives") as [v|]; [|assumption].
  destruct v; try assumption. now apply mergeable_set_directives.
Qed.

(** A resolved configuration is a tree further merges succeed on; in
    particular its [directives] entry is absent or a mapping, which is what
    the hook relies on when it takes [directives.keys()]. *)
Theorem resolved_configuration_mergeable (pl : pathlib) (fs : filesystem)
    (fuel : nat) (profiles : list string) (cfg : dict) :
  load_config pl fs fuel profiles = Some (Return (Some cfg)) ->
  mergeable cfg /\
  (dict_get cfg "directives" = None \/
   exists nd, dict_get cfg "directives" = Some (VDict nd)).
Proof.
  intros H.
  destruct (load_config_success pl fs fuel profiles cfg H)
    as [merged [visited [Hm Hcfg]]].
  assert (Hmc : mergeable cfg).
  { subst cfg. apply normalize_directives_mergeable.
    eapply load_profiles_mergeable; [apply mergeable_nil | exact Hm]. }
  split; [assumption|].
  apply mergeable_directives_ok in Hmc. unfold directives_ok in Hmc.
  destruct (dict_get cfg "directives") as [v|]; [|now left].
  destruct v; try contradiction. right. eauto.
Qed.

Lemma resolved_configuration_mergeable_witness :
  mergeable [("directives",
              VDict [("analyze", VInt 1); ("--x", VDict []);
                     ("fast mode", VDict [])])] /\
  (dict_get [("directives",
              VDict [("analyze", VInt 1); ("--x", VDict []);
                     ("fast mode", VDict [])])] "directives" = None \/
   exists nd,
     dict_get [("directives",
                VDict [("analyze", VInt 1); ("--x", VDict []);
                       ("fast mode", VDict [])])] "directives"
     = Some (VDict nd)).
Proof.
  apply (resolved_configuration_mergeable flat_pathlib fs_loose_keys 1
           ["claude"]).
  reflexivity.
Defined.

(** ** Revisits and repeated profiles *)



Lemma load_profiles_app (pl : pathlib) (fs : filesystem) (fuel : nat)
    (first second : list string) :
  forall config v,
    load_profiles pl fs fuel (first ++ second)%list config v =
    match load_profiles pl fs fuel first config v with
    | Some (Return (c, v1)) => load_profiles pl fs fuel second c v1
    | other => other
    end.
Proof.
  induction first as [|p rest IH]; intros config v; cbn [app load_profiles].
  - reflexivity.
  - destruct (resolve_profile_path pl p) as [pp|e]; [|reflexivity].
    destruct (negb (path_exists fs pp)); [reflexivity|].
    destruct (load_profile_tree pl fs fuel pp v) as [[[tree v1]|e]|];
      try reflexivity.
    destruct (merge_configs config (VDict tree)) as [c|e]; [|reflexivity].
    apply IH.
Qed.

(** Naming a profile a second time changes nothing: the file is already in
    the visited set, so its second load merges the empty tree. *)
Theorem repeated_profile_harmless (pl : pathlib) (fs : filesystem)
    (fuel : nat) (profiles : list string) (p : string)
    (config c : dict) (v v' : visited_set) :
  load_profiles pl fs (S fuel) profiles config v = Some (Return (c, v')) ->
  In p profiles ->
  load_profiles pl fs (S fuel) (profiles ++ [p])%list config v
  = Some (Return (c, v')).
Proof.
  intros H Hin. rewrite load_profiles_app, H.
  destruct (load_profiles_closed pl fs (S fuel) profiles config v c v' H)
    as [_ Hloaded].
  destruct (Hloaded p Hin) as [pp [Hpp [Hex Hv]]].
  cbn [load_profiles]. rewrite Hpp, Hex. cbn [negb load_profile_tree].
  apply in_visited_In in Hv. rewrite Hv. reflexivity.
Qed.

Lemma repeated_profile_harmless_witness :
  load_profiles flat_pathlib fs_cycle 3 (["a"; "b"] ++ ["a"])%list [] []
  = Some (Return ([("from_b", VInt 2); ("from_a", VInt 1)],
                  ["b.yaml"; "a.yaml"])).
Proof.
  apply (repeated_profile_harmless flat_pathlib fs_cycle 2 ["a"; "b"] "a").
  - reflexivity.
  - now left.
Defined.

(** ** Shape of the expanded keys *)

Lemma lstrip_head_ok (s : string) : head_ok (lstrip s) = true.
Proof.
  induction s as [|c r IH]; simpl; [reflexivity|].
  destruct (is_space c) eqn:E; [exact IH|]. simpl. now rewrite E.
Qed.

Lemma head_ok_lstrip (s : string) : head_ok s = true -> lstrip s = s.
Proof.
  destruct s as [|c r]; simpl; [reflexivity|].
  intros H. apply negb_true_iff in H. now rewrite H.
Qed.

Lemma rstrip_head_ok (s : string) : head_ok s = true -> head_ok (rstrip s) = true.
Proof.
  destruct s as [|c r]; simpl; [reflexivity|].
  intros H. apply negb_true_iff in H. rewrite H. simpl. now rewrite H.
Qed.

Lemma rstrip_idempotent (s : string) : rstrip (rstrip s) = rstrip s.
Proof.
  induction s as [|c r IH]; simpl; [reflexivity|].
  destruct (is_space c && is_empty (rstrip r)) eqn:E; [reflexivity|].
  simpl. rewrite IH, E. reflexivity.
Qed.

Lemma strip_idempotent (s : string) : strip (strip s) = strip s.
Proof.
  unfold strip.
  rewrite (head_ok_lstrip (rstrip (lstrip s)))
    by (apply rstrip_head_ok, lstrip_head_ok).
  apply rstrip_idempotent.
Qed.

Lemma set_add_NoDup (a : string) (keys : list string) :
  NoDup keys -> NoDup (set_add a keys).
Proof.
  intros H. unfold set_add.
  destruct (existsb (String.eqb a) keys) eqn:E; [assumption|].
  apply NoDup_app; [assumption | repeat constructor; intros [] |].
  intros x Hx [Heq|[]]. subst x.
  assert (Hm : mem_key a keys = true) by now apply mem_key_In.
  unfold mem_key in Hm. congruence.
Qed.

Lemma add_trimmed_NoDup (xs : list string) :
  forall keys, NoDup keys -> NoDup (add_trimmed xs keys).
Proof.
  induction xs as [|x rest IH]; intros keys H; simpl; [assumption|].
  apply IH. destruct (is_empty (strip x)); [assumption|].
  now apply set_add_NoDup.
Qed.

Lemma add_alias_field_NoDup (d : dict) (field : string) (keys : list string) :
  NoDup keys -> NoDup (add_alias_field d field keys).
Proof.
  intros H. unfold add_alias_field.
  destruct (dict_get d field) as [v|]; [|assumption].
  destruct v; try assumption. now apply add_trimmed_NoDup.
Qed.

Lemma key_origin_trimmed (raw : string) (directive : value) (k : string) :
  key_origin raw directive k -> is_empty k = false /\ strip k = k.
Proof.
  intros [[_ Hc]|[[_ [part [_ [Hk Hne]]]]|[body [_ [Ha|Ha]]]]].
  - split; [now apply is_canonical_nonempty | now apply strip_canonical].
  - split; [assumption|]. subst k. apply strip_idempotent.
  - destruct Ha as [items [a [_ [_ [Hk Hne]]]]].
    split; [assumption|]. subst k. apply strip_idempotent.
  - destruct Ha as [items [a [_ [_ [Hk Hne]]]]].
    split; [assumption|]. subst k. apply strip_idempotent.
Qed.

(** The keys [expand_flag_keys] returns are distinct, non-empty and free of
    surrounding whitespace; and when the raw key holds at least one flag
    token, every key derived from the raw key is a canonical token: the
    comma/pipe fallback is used only for raw keys without any. *)
Theorem expand_flag_keys_shape (raw : string) (directive : value) :
  NoDup (expand_flag_keys raw directive) /\
  (forall k, In k (expand_flag_keys raw directive) ->
             is_empty k = false /\ strip k = k) /\
  (findall_flags raw <> [] ->
   forall k, In k (raw_keys raw) -> is_canonical k = true).
Proof.
  split; [|split].
  - unfold expand_flag_keys.
    assert (Hraw : NoDup
              match add_trimmed (findall_flags raw) [] with
              | [] => add_trimmed (split_comma_pipe raw) []
              | _ :: _ => add_trimmed (findall_flags raw) []
              end).
    { destruct (add_trimmed (findall_flags raw) []) eqn:E.
      - apply add_trimmed_NoDup. constructor.
      - rewrite <- E. apply add_trimmed_NoDup. constructor. }
    destruct directive; try exact Hraw.
    now apply add_alias_field_NoDup, add_alias_field_NoDup.
  - intros k Hk. apply expand_flag_keys_origin in Hk.
    now apply key_origin_trimmed in Hk.
  - intros Hne k Hk. apply raw_keys_origin in Hk.
    destruct Hk as [[_ Hc]|[[Hnil _]|[body [Hb _]]]];
      [assumption | contradiction | discriminate].
Qed.

Lemma expand_flag_keys_shape_witness : is_canonical "--y" = true.
Proof.
  apply (proj2 (proj2 (expand_flag_keys_shape "--x, plain | --y" VNone))).
  - discriminate.
  - simpl. tauto.
Defined.

(** ** The directive cleaner on any body *)

Lemma dict_keys_set_In (d : dict) (k q : string) (v : value) :
  In q (dict_keys d) -> In q (dict_keys (dict_set d k v)).
Proof.
  induction d as [|[k' v'] rest IH]; simpl; [tauto|].
  destruct (String.eqb_spec k' k) as [->|Hne]; simpl; intuition.
Qed.

Lemma dict_set_NoDup (d : dict) (k : string) (v : value) :
  NoDup (dict_keys d) -> NoDup (dict_keys (dict_set d k v)).
Proof.
  induction d as [|[k' v'] rest IH]; simpl; intros H.
  - repeat constructor. intros [].
  - apply NoDup_cons_iff in H. destruct H as [Hk Hnd].
    destruct (String.eqb_spec k' k) as [->|Hne]; simpl.
    + now constructor.
    + constructor; [|now apply IH].
      intros Hin. apply dict_keys_set in Hin. destruct Hin; congruence.
Qed.

Lemma clean_fold_invariant (body : dict) :
  forall acc,
    NoDup (dict_keys acc) ->
    (forall k, In k (dict_keys acc) -> is_alias_field k = false) ->
    let cleaned :=
      fold_left
        (fun cleaned kv =>
           if is_alias_field (fst kv) then cleaned
           else dict_set cleaned (fst kv) (snd kv)) body acc in
    NoDup (dict_keys cleaned) /\
    (forall k, In k (dict_keys cleaned) -> is_alias_field k = false).
Proof.
  induction body as [|[k v] rest IH]; intros acc Hnd Hacc; simpl.
  - now split.
  - destruct (is_alias_field k) eqn:E; [now apply IH|].
    apply IH.
    + now apply dict_set_NoDup.
    + intros q Hq. apply dict_keys_set in Hq.
      destruct Hq as [->|Hq]; [assumption | now apply Hacc].
Qed.

Lemma without_alias_fields_fixed (d : dict) :
  (forall k, In k (dict_keys d) -> is_alias_field k = false) ->
  without_alias_fields d = d.
Proof.
  induction d as [|[k v] rest IH]; intros H; simpl; [reflexivity|].
  rewrite (H k) by now left. simpl. rewrite IH; [reflexivity|].
  intros q Hq. apply H. now right.
Qed.

(** Whatever the body, the cleaned directive has distinct keys, none of
    them [aliases] or [variations], and cleaning it again changes nothing;
    on a body with distinct keys every other field keeps its value. *)
Theorem clean_directive_config_contract (body : dict) :
  NoDup (dict_keys (clean_directive_config body)) /\
  dict_get (clean_directive_config body) "aliases" = None /\
  dict_get (clean_directive_config body) "variations" = None /\
  clean_directive_config (clean_directive_config body)
  = clean_directive_config body /\
  (NoDup (dict_keys body) ->
   forall k, is_alias_field k = false ->
             dict_get (clean_directive_config body) k = dict_get body k).
Proof.
  destruct (clean_fold_invariant body [] (NoDup_nil _)
              (fun k (H : In k []) => match H with end)) as [Hnd Hna].
  fold (clean_directive_config body) in Hnd, Hna.
  split; [assumption|]. split; [|split; [|split]].
  - apply dict_get_absent. intros Hin. apply Hna in Hin. discriminate.
  - apply dict_get_absent. intros Hin. apply Hna in Hin. discriminate.
  - rewrite (clean_directive_config_filter _ Hnd).
    now apply without_alias_fields_fixed.
  - intros Hb k Hk. rewrite (clean_directive_config_filter body Hb).
    rewrite without_alias_fields_get. now rewrite Hk.
Qed.

Lemma clean_directive_config_contract_witness :
  dict_get (clean_directive_config
              [("aliases", VList [VStr "--z"]); ("mode", VStr "fast")]) "mode"
  = dict_get [("aliases", VList [VStr "--z"]); ("mode", VStr "fast")] "mode".
Proof.
  apply (proj2 (proj2 (proj2 (proj2
           (clean_directive_config_contract
              [("aliases", VList [VStr "--z"]); ("mode", VStr "fast")]))))).
  - repeat constructor; simpl; intuition discriminate.
  - reflexivity.
Defined.

(** ** Values of the normalized map *)

Lemma clean_alias_free (body : dict) :
  alias_free (VDict (clean_directive_config body)).
Proof.
  intros b Hb. inversion Hb. subst b.
  destruct (clean_directive_config_contract body) as [_ [Ha [Hv _]]].
  now split.
Qed.

Lemma assign_keys_values (P : value -> Prop) (keys : list string) (v : value)
    (d : dict) :
  (forall k x, dict_get d k = Some x -> P x) ->
  P v ->
  forall k x, dict_get (assign_keys d keys v) k = Some x -> P x.
Proof.
  intros Hd Hv k x H. rewrite dict_get_assign_keys in H.
  destruct (mem_key k keys); [inversion H; now subst | eauto].
Qed.

Lemma normalize_entry_alias_free (d : dict) (raw : string) (directive : value) :
  (forall k x, dict_get d k = Some x -> alias_free x) ->
  forall k x, dict_get (normalize_entry d raw directive) k = Some x ->
              alias_free x.
Proof.
  intros Hd. unfold normalize_entry.
  destruct directive; apply assign_keys_values; try assumption;
    try (intros body Hb; discriminate).
  apply clean_alias_free.
Qed.

Lemma normalize_fold_alias_free (dm : dict) :
  forall acc,
    (forall k x, dict_get acc k = Some x -> alias_free x) ->
    forall k x,
      dict_get (fold_left (fun normalized kv =>
                             normalize_entry normalized (fst kv) (snd kv))
                          dm acc) k = Some x ->
      alias_free x.
Proof.
  induction dm as [|[raw directive] rest IH]; intros acc Hacc; simpl.
  - exact Hacc.
  - apply IH. now apply normalize_entry_alias_free.
Qed.

(** After a successful resolution no mapping directive of the normalized
    map carries [aliases] or [variations]: alias metadata never reaches
    the hook. *)
Theorem normalized_directives_alias_free (pl : pathlib) (fs : filesystem)
    (fuel : nat) (profiles : list string) (cfg nd : dict) (k : string)
    (v : value) :
  load_config pl fs fuel profiles = Some (Return (Some cfg)) ->
  dict_get cfg "directives" = Some (VDict nd) ->
  dict_get nd k = Some v ->
  alias_free v.
Proof.
  intros Hload Hget Hk.
  destruct (load_config_success pl fs fuel profiles cfg Hload)
    as [merged [visited [_ Hcfg]]].
  subst cfg. apply normalize_directives_map in Hget.
  destruct Hget as [dm [_ Hnd]]. subst nd.
  eapply (normalize_fold_alias_free dm []); [|exact Hk].
  intros q x H. discriminate.
Qed.

Lemma normalized_directives_alias_free_witness : alias_free (VDict []).
Proof.
  apply (normalized_directives_alias_free flat_pathlib fs_loose_keys 1
           ["claude"]
           [("directives",
             VDict [("analyze", VInt 1); ("--x", VDict []);
                    ("fast mode", VDict [])])]
           [("analyze", VInt 1); ("--x", VDict []); ("fast mode", VDict [])]
           "--x" (VDict [])).
  - reflexivity.
  - reflexivity.
  - reflexivity.
Defined.

(** ** Active profiles *)

Lemma normalize_profiles_sound (profiles : list string) :
  forall normalized,
    NoDup normalized ->
    (forall p, In p normalized -> is_empty (strip p) = false) ->
    NoDup (normalize_profiles profiles normalized) /\
    (forall p, In p (normalize_profiles profiles normalized) ->
               is_empty (strip p) = false).
Proof.
  induction profiles as [|profile rest IH]; intros normalized Hnd Hnb;
    cbn [normalize_profiles]; [now split|].
  destruct (is_empty (strip (remove_all ".yml" (remove_all ".yaml" profile))))
    eqn:E; [now apply IH|].
  apply IH; [now apply set_add_NoDup|].
  intros p Hp. apply set_add_In in Hp. destruct Hp as [->|Hp]; [|now apply Hnb].
  now rewrite strip_idempotent.
Qed.

(** [resolve_profiles] always names at least one profile, names none
    twice and none that is blank, whatever the environment holds; with the
    three variables unset or empty it names the default profile alone. *)
Theorem resolve_profiles_sound (env : environment) :
  resolve_profiles env <> [] /\
  NoDup (resolve_profiles env) /\
  (forall p, In p (resolve_profiles env) -> is_empty (strip p) = false) /\
  (or_else (SUPERFLAG_PROFILES env)
     (or_else (SUPERFLAG_PROFILE env)
        (or_else (SUPERFLAG_PLATFORM env) "")) = "" ->
   resolve_profiles env = ["claude"]).
Proof.
  assert (Hdefault :
            [DEFAULT_PROFILE] <> [] /\ NoDup [DEFAULT_PROFILE] /\
            (forall p, In p [DEFAULT_PROFILE] -> is_empty (strip p) = false)).
  { split; [discriminate|]. split; [repeat constructor; intros []|].
    intros p [<-|[]]. reflexivity. }
  unfold resolve_profiles.
  split; [|split; [|split]];
    try (destruct (stripped_parts _) as [|q qs]; [apply Hdefault|];
         destruct (normalize_profiles_sound (q :: qs) [] (NoDup_nil _)
                     (fun p (H : In p []) => match H with end))
           as [Hnd Hnb];
         destruct (normalize_profiles (q :: qs) []);
           [apply Hdefault | discriminate || assumption]).
  intros ->. reflexivity.
Qed.

(** ** Flag detection *)

Lemma prefix_spec (sub s : string) :
  String.prefix sub s = true <-> exists b, s = (sub ++ b)%string.
Proof.
  revert s. induction sub as [|c r IH]; intros s.
  - split; [intros _; exists s; reflexivity | intros _; now destruct s].
  - destruct s as [|d t]; simpl.
    + split; [discriminate | intros [b Hb]; discriminate].
    + destruct (Ascii.ascii_dec c d) as [->|Hne].
      * rewrite IH. split.
        -- intros [b ->]. now exists b.
        -- intros [b Hb]. inversion Hb. now exists b.
      * split; [discriminate|]. intros [b Hb]. inversion Hb. congruence.
Qed.

Lemma is_substring_spec (sub s : string) :
  is_substring sub s = true <-> exists a b, s = (a ++ sub ++ b)%string.
Proof.
  induction s as [|c r IH].
  - cbn [is_substring]. rewrite orb_false_r, prefix_spec. split.
    + intros [b Hb]. exists EmptyString, b. exact Hb.
    + intros [a [b Hab]]. destruct a; [now exists b | discriminate].
  - cbn [is_substring]. rewrite orb_true_iff, prefix_spec, IH. split.
    + intros [[b Hb]|[a [b Hab]]].
      * exists EmptyString, b. exact Hb.
      * exists (String c a), b. simpl. now rewrite Hab.
    + intros [a [b Hab]]. destruct a as [|d a'].
      * left. now exists b.
      * right. simpl in Hab. inversion Hab. now exists a', b.
Qed.

Lemma first_occurrences_fold (xs : list string) :
  forall seen,
    NoDup seen ->
    NoDup (fold_left (fun seen x => set_add x seen) xs seen) /\
    (forall x, In x (fold_left (fun seen x => set_add x seen) xs seen) <->
               In x seen \/ In x xs).
Proof.
  induction xs as [|y rest IH]; intros seen Hnd; simpl.
  - split; [assumption | intros x; tauto].
  - destruct (IH (set_add y seen) (set_add_NoDup y seen Hnd)) as [H1 H2].
    split; [assumption|]. intros x. rewrite H2, set_add_In.
    intuition congruence.
Qed.

(** [extract_valid_flags] returns, without repetition, exactly the valid
    flags that occur somewhere in the input as a substring, with no regard
    for what surrounds them. *)
Theorem extract_valid_flags_spec (user_input : string)
    (valid_flags : list string) :
  NoDup (extract_valid_flags user_input valid_flags) /\
  forall flag,
    In flag (extract_valid_flags user_input valid_flags) <->
    In flag valid_flags /\
    exists before after, user_input = (before ++ flag ++ after)%string.
Proof.
  unfold extract_valid_flags, first_occurrences.
  destruct (first_occurrences_fold
              (filter (fun flag => is_substring flag user_input) valid_flags)
              [] (NoDup_nil _)) as [Hnd Hin].
  split; [assumption|]. intros flag.
  rewrite Hin, filter_In, is_substring_spec. simpl. tauto.
Qed.

Lemma resolve_profiles_sound_witness :
  resolve_profiles {| SUPERFLAG_PROFILES := Some "";
                      SUPERFLAG_PROFILE := None;
                      SUPERFLAG_PLATFORM := None |} = ["claude"].
Proof.
  apply (proj2 (proj2 (proj2
           (resolve_profiles_sound
              {| SUPERFLAG_PROFILES := Some "";
                 SUPERFLAG_PROFILE := None;
                 SUPERFLAG_PLATFORM := None |})))).
  reflexivity.
Defined.

(** ** Directory includes *)

Section Walk.

Variable pl : pathlib.
Variable fs : filesystem.

(** Sorting keeps the paths it is given, and only those. *)
Hypothesis sort_paths_In :
  forall l x, In x (sort_paths pl l) <-> In x l.

Lemma collect_entry_spec (entry : dir_entry) :
  forall q,
    In q (collect_entry pl fs entry) <->
    exists p, lists_file p entry = true /\
              is_yaml_file pl fs p = true /\ q = resolve pl p.
Proof.
  induction entry as [d children IH|p] using dir_entry_nested_ind; intros q.
  - cbn [collect_entry lists_file]. rewrite sort_paths_In, in_flat_map.
    rewrite Forall_forall in IH. split.
    + intros [e [He Hq]]. apply (IH e He) in Hq.
      destruct Hq as [p [Hp Hrest]]. exists p. split; [|assumption].
      apply existsb_exists. eauto.
    + intros [p [Hp Hrest]]. apply existsb_exists in Hp.
      destruct Hp as [e [He Hl]]. exists e. split; [assumption|].
      apply (IH e He). eauto.
  - cbn [collect_entry lists_file]. split.
    + destruct (is_yaml_file pl fs p) eqn:E; [|intros []].
      intros [<-|[]]. exists p. rewrite String.eqb_refl. tauto.
    + intros [p' [Hp [Hy Hq]]]. apply String.eqb_eq in Hp. subst p'.
      rewrite Hy. now left.
Qed.

(** A directory walk returns exactly the resolved paths of the YAML files
    listed under the directory, at any depth: no directory, no file of
    another kind, nothing from elsewhere. *)
Theorem collect_yaml_files_spec (entries : list dir_entry) (q : path) :
  In q (collect_yaml_files pl fs entries) <->
  exists p, existsb (lists_file p) entries = true /\
            is_yaml_file pl fs p = true /\ q = resolve pl p.
Proof.
  unfold collect_yaml_files. rewrite sort_paths_In, in_flat_map. split.
  - intros [e [He Hq]]. apply collect_entry_spec in Hq.
    destruct Hq as [p [Hp Hrest]]. exists p. split; [|assumption].
    apply existsb_exists. eauto.
  - intros [p [Hp Hrest]]. apply existsb_exists in Hp.
    destruct Hp as [e [He Hl]]. exists e. split; [assumption|].
    apply collect_entry_spec. eauto.
Qed.

Lemma targets_at_yaml (p : path) (targets : list path) :
  targets_at pl fs p = Some targets ->
  forall t, In t targets ->
    exists q, is_yaml_file pl fs q = true /\ (t = q \/ t = resolve pl q).
Proof.
  unfold targets_at. destruct (lookup (fs_dirs fs) p) as [entries|].
  - intros H t Ht. inversion H. subst targets.
    apply collect_yaml_files_spec in Ht. destruct Ht as [q [_ [Hy Hq]]].
    exists q. tauto.
  - destruct (is_yaml_file pl fs p) eqn:E; [|discriminate].
    intros H t Ht. inversion H. subst targets. destruct Ht as [<-|[]].
    exists p. tauto.
Qed.

Lemma probe_extensions_yaml (candidate : path) (exts : list string)
    (targets : list path) :
  probe_extensions pl fs candidate exts = Return targets ->
  forall t, In t targets ->
    exists q, is_yaml_file pl fs q = true /\ (t = q \/ t = resolve pl q).
Proof.
  induction exts as [|ext rest IH]; cbn [probe_extensions]; [discriminate|].
  destruct (targets_at pl fs _) as [found|] eqn:E; [|exact IH].
  intros H. inversion H. subst. now apply (targets_at_yaml _ _ E).
Qed.

(** Every target the include resolver returns is an existing file with a
    YAML extension (or the resolved form of one found in a directory walk):
    a reference never resolves to a file of another kind. *)
Theorem resolve_include_targets_yaml (reference : string) (base_path : path)
    (targets : list path) (t : path) :
  resolve_include_targets pl fs reference base_path = Return targets ->
  In t targets ->
  exists q, is_yaml_file pl fs q = true /\ (t = q \/ t = resolve pl q).
Proof.
  unfold resolve_include_targets.
  destruct (is_empty (strip reference)); [discriminate|].
  destruct (targets_at pl fs _) as [found|] eqn:E.
  - intros H. inversion H. subst. now apply (targets_at_yaml _ _ E).
  - destruct (has_yaml_suffix pl _); [discriminate|].
    intros H. now apply (probe_extensions_yaml _ _ _ H).
Qed.

End Walk.

Lemma flat_sort_In (l : list path) (x : path) :
  In x (sort_paths flat_pathlib l) <-> In x l.
Proof. reflexivity. Qed.

Lemma collect_yaml_files_spec_witness :
  In "configs/sub/b.yml"
     (collect_yaml_files flat_pathlib fs_directory
        [EntryOther "configs/a.yaml"; EntryOther "configs/notes.txt";
         EntryDir "configs/sub" [EntryOther "configs/sub/b.yml"]]) <->
  exists p,
    existsb (lists_file p)
      [EntryOther "configs/a.yaml"; EntryOther "configs/notes.txt";
       EntryDir "configs/sub" [EntryOther "configs/sub/b.yml"]] = true /\
    is_yaml_file flat_pathlib fs_directory p = true /\
    "configs/sub/b.yml" = resolve flat_pathlib p.
Proof.
  apply (collect_yaml_files_spec flat_pathlib fs_directory flat_sort_In).
Defined.

Lemma resolve_include_targets_yaml_witness :
  exists q,
    is_yaml_file flat_pathlib fs_directory q = true /\
    ("configs/a.yaml" = q \/ "configs/a.yaml" = resolve flat_pathlib q).
Proof.
  apply (resolve_include_targets_yaml flat_pathlib fs_directory flat_sort_In
           "configs" "claude.yaml"
           ["configs/a.yaml"; "configs/sub/b.yml"] "configs/a.yaml").
  - reflexivity.
  - now left.
Defined.

(** A directory include at work: the two YAML files are merged, the text
    file is left out. *)
Example directory_include_example :
  load_config flat_pathlib fs_directory 2 ["claude"] =
  Some (Return (Some [("a", VInt 1); ("b", VInt 2)])).
Proof. reflexivity. Qed.

(** ** Guidance messages *)

Section MessagesFacts.

Variable format : string -> list (string * string) -> hook_outcome string.

Lemma hbind_inv {A B : Type} (m : hook_outcome A)
    (f : A -> hook_outcome B) (b : B) :
  hbind m f = HReturn b -> exists a, m = HReturn a /\ f a = HReturn b.
Proof. destruct m as [a|e]; simpl; [eauto | discriminate]. Qed.

Lemma single_truthy (m : value) (msgs : list value) :
  msgs = (if truthy m then [m] else []) ->
  List.length msgs <= 1 /\ forall x, In x msgs -> truthy x = true.
Proof.
  intros ->. destruct (truthy m) eqn:E; simpl.
  - split; [lia|]. intros x [<-|[]]. exact E.
  - split; [lia|]. intros x [].
Qed.

(** [generate_messages] produces at most one message, never a falsy one
    (no empty string, no [None]), and none at all without flags. *)
Theorem generate_messages_at_most_one (flags : list string)
    (hook_messages : value) (msgs : list value) :
  generate_messages format flags hook_messages = HReturn msgs ->
  List.length msgs <= 1 /\
  (forall m, In m msgs -> truthy m = true) /\
  (flags = [] -> msgs = []).
Proof.
  unfold generate_messages. destruct flags as [|f rest].
  - intros H. inversion H. simpl. split; [lia|]. split; [intros m []|reflexivity].
  - destruct (existsb (String.eqb AUTO_FLAG) (f :: rest)).
    + destruct (get_auto_message _ _ _ _) as [m|e]; cbn [hbind];
        [|discriminate].
      intros H. inversion H as [Hm].
      destruct (single_truthy m _ eq_refl) as [Hlen Htruthy].
      split; [assumption|]. split; [assumption | discriminate].
    + destruct (get_other_flags_message _ _ _) as [m|e]; cbn [hbind];
        [|discriminate].
      intros H. inversion H as [Hm].
      destruct (single_truthy m _ eq_refl) as [Hlen Htruthy].
      split; [assumption|]. split; [assumption | discriminate].
Qed.

(** With [--auto] among the flags only the two auto templates are
    consulted: two message tables that agree on [auto_with_context] and
    [auto_authority] give the same messages, whatever they hold for the
    reset and standard cases and whether [--reset] is present or not. *)
Theorem auto_ignores_other_templates (flags : list string)
    (hm hm' : value) :
  In AUTO_FLAG flags ->
  py_get hm "auto_with_context" (VDict [])
  = py_get hm' "auto_with_context" (VDict []) ->
  py_get hm "auto_authority" (VDict [])
  = py_get hm' "auto_authority" (VDict []) ->
  generate_messages format flags hm = generate_messages format flags hm'.
Proof.
  intros Hin Hc Ha. unfold generate_messages.
  destruct flags as [|f rest]; [reflexivity|].
  assert (Hauto : existsb (String.eqb AUTO_FLAG) (f :: rest) = true)
    by (apply (proj2 (mem_key_In AUTO_FLAG (f :: rest))); exact Hin).
  rewrite Hauto. unfold get_auto_message.
  destruct (filter _ (f :: rest)); now rewrite ?Hc, ?Ha.
Qed.

Variable pl : pathlib.
Variable fs : filesystem.

Lemma first_occurrences_nil (xs : list string) :
  xs = [] -> first_occurrences xs = [].
Proof. now intros ->. Qed.

Lemma filter_none {A : Type} (f : A -> bool) (l : list A) :
  (forall x, In x l -> f x = false) -> filter f l = [].
Proof.
  induction l as [|x rest IH]; intros H; simpl; [reflexivity|].
  rewrite (H x) by now left. apply IH. intros y Hy. apply H. now right.
Qed.

(** [process_input] answers with exactly one non-empty message or with
    nothing; and when no key of the resolved [directives] occurs in the
    input it answers with nothing, without looking at the templates. *)
Theorem process_input_contract (fuel : nat) (profiles : list string)
    (user_input : string) :
  (forall msgs,
     process_input format pl fs fuel profiles user_input
     = Some (HReturn (Some msgs)) ->
     exists m, msgs = [m] /\ truthy m = true) /\
  (forall cfg,
     load_config pl fs fuel profiles = Some (Return (Some cfg)) ->
     (forall nd k, dict_get cfg "directives" = Some (VDict nd) ->
                   In k (dict_keys nd) -> is_substring k user_input = false) ->
     process_input format pl fs fuel profiles user_input
     = Some (HReturn None)).
Proof.
  split.
  - intros msgs H. unfold process_input in H.
    destruct (load_config pl fs fuel profiles) as [[[cfg|]|e]|];
      try discriminate.
    destruct cfg as [|kv cfg']; [discriminate|].
    destruct (py_get (VDict (kv :: cfg')) "directives" (VDict []))
      as [directives|e]; unfold hbind at 1 in H; cbv beta iota in H;
      [|discriminate].
    destruct (py_keys directives) as [valid|e];
      unfold hbind at 1 in H; cbv beta iota in H; [|discriminate].
    destruct (extract_valid_flags user_input valid) as [|f flags];
      [discriminate|].
    destruct (py_get (VDict (kv :: cfg')) "hook_messages" (VDict []))
      as [hook_messages|e]; unfold hbind at 1 in H; cbv beta iota in H;
      [|discriminate].
    destruct (generate_messages format (f :: flags) hook_messages)
      as [messages|e] eqn:Eg; unfold hbind at 1 in H; cbv beta iota in H;
      [|discriminate].
    injection H as H1.
    destruct (generate_messages_at_most_one _ _ _ Eg) as [Hlen [Htruthy _]].
    destruct messages as [|m [|m' more]]; try discriminate.
    + inversion H1. exists m. split; [reflexivity|]. apply Htruthy. now left.
    + simpl in Hlen. lia.
  - intros cfg Hload Hnone. unfold process_input. rewrite Hload.
    destruct cfg as [|kv cfg']; [reflexivity|].
    destruct (resolved_configuration_mergeable pl fs fuel profiles _ Hload)
      as [_ [Habs|[nd Hnd]]].
    + cbn [py_get]. rewrite Habs. reflexivity.
    + cbn [py_get]. rewrite Hnd. cbn [hbind py_keys].
      unfold extract_valid_flags. rewrite filter_none; [reflexivity|].
      intros k Hk. now apply (Hnone nd k).
Qed.

End MessagesFacts.

Lemma generate_messages_at_most_one_witness :
  List.length [VStr "auto with others"] <= 1 /\
  (forall m, In m [VStr "auto with others"] -> truthy m = true) /\
  (["--reset"; "--auto"] = [] -> [VStr "auto with others"] = []).
Proof.
  apply (generate_messages_at_most_one format_verbatim ["--reset"; "--auto"]
           (VDict [("auto_with_context",
                    VDict [("message", VStr "auto with others")])])).
  reflexivity.
Defined.

Lemma auto_ignores_other_templates_witness :
  generate_messages format_verbatim ["--reset"; "--auto"]
    (VDict [("reset_with_others", VDict [("message", VStr "reset first")])])
  = generate_messages format_verbatim ["--reset"; "--auto"] (VDict []).
Proof.
  apply (auto_ignores_other_templates format_verbatim ["--reset"; "--auto"]).
  - simpl. tauto.
  - reflexivity.
  - reflexivity.
Defined.

Lemma process_input_contract_witness :
  exists m, [VStr "reset alone"] = [m] /\ truthy m = true.
Proof.
  apply (proj1 (process_input_contract format_verbatim flat_pathlib fs_hook 1
                  ["claude"] "do --reset now")).
  reflexivity.
Defined.

(** ** Several profiles *)



(** ** Distinct keys *)

Lemma dict_keys_pop (d : dict) (k q : string) :
  In q (dict_keys (dict_pop d k)) -> In q (dict_keys d).
Proof.
  induction d as [|[k' v'] rest IH]; simpl; [tauto|].
  destruct (String.eqb k' k); simpl; intuition.
Qed.

Lemma dict_pop_NoDup (d : dict) (k : string) :
  NoDup (dict_keys d) -> NoDup (dict_keys (dict_pop d k)).
Proof.
  induction d as [|[k' v'] rest IH]; simpl; intros H; [constructor|].
  apply NoDup_cons_iff in H. destruct H as [Hk Hnd].
  destruct (String.eqb k' k); simpl; [now apply IH|].
  constructor; [|now apply IH].
  intros Hin. apply dict_keys_pop in Hin. contradiction.
Qed.

Lemma generic_merge_NoDup (merge : dict -> value -> outcome dict)
    (items : dict) :
  forall result r,
    NoDup (dict_keys result) ->
    generic_merge merge items result = Return r ->
    NoDup (dict_keys r).
Proof.
  induction items as [|[key v] rest IH]; intros result r Hnd H;
    cbn [generic_merge] in H.
  - inversion H. now subst.
  - destruct (String.eqb key "directives"); [now apply (IH result)|].
    destruct v;
      try (apply (IH _ r (dict_set_NoDup result key _ Hnd) H)).
    + apply (IH _ r (dict_pop_NoDup result key Hnd) H).
    + destruct (merge (existing_mapping result key) (VDict entries))
        as [m|e]; [|discriminate].
      cbn [bind] in H. apply (IH _ r (dict_set_NoDup result key _ Hnd) H).
Qed.

Lemma directives_section_NoDup (base : dict) (overlay : value) (r1 : dict) :
  NoDup (dict_keys base) ->
  merge_directives_section base overlay = Return r1 ->
  NoDup (dict_keys r1).
Proof.
  intros Hnd H. unfold merge_directives_section in H.
  destruct overlay; try (inversion H; now subst).
  destruct (dict_get entries "directives") as [v|];
    [|inversion H; now subst].
  destruct v; try (inversion H; now subst).
  unfold setdefault_directives in H.
  destruct (dict_get base "directives") as [dv|].
  - destruct (merge_directives dv entries0) as [dv'|e]; [|discriminate].
    inversion H. now apply dict_set_NoDup.
  - destruct (merge_directives (VDict []) entries0) as [dv'|e]; [|discriminate].
    inversion H. now apply dict_set_NoDup, dict_set_NoDup.
Qed.

Lemma merge_configs_NoDup (base : dict) (overlay : value) (r : dict) :
  NoDup (dict_keys base) ->
  merge_configs base overlay = Return r ->
  NoDup (dict_keys r).
Proof.
  intros Hnd H. destruct overlay;
    try (cbn in H; inversion H; now subst).
  rewrite merge_configs_unfold in H.
  destruct (merge_directives_section base (VDict entries)) as [r1|e] eqn:E1;
    [|discriminate].
  cbn [bind] in H.
  eapply generic_merge_NoDup; [|exact H].
  eapply directives_section_NoDup; eassumption.
Qed.

Lemma load_profiles_NoDup (pl : pathlib) (fs : filesystem) (fuel : nat)
    (profiles : list string) :
  forall config v c v',
    NoDup (dict_keys config) ->
    load_profiles pl fs fuel profiles config v = Some (Return (c, v')) ->
    NoDup (dict_keys c).
Proof.
  induction profiles as [|profile rest IH]; intros config v c v' Hnd H;
    cbn [load_profiles] in H.
  - inversion H. now subst.
  - destruct (resolve_profile_path pl profile) as [pp|e]; [|discriminate].
    destruct (negb (path_exists fs pp)); [discriminate|].
    destruct (load_profile_tree pl fs fuel pp v) as [[[tree v1]|e]|];
      try discriminate.
    destruct (merge_configs config (VDict tree)) as [c1|e] eqn:Em;
      [|discriminate].
    eapply IH; [|exact H]. eapply merge_configs_NoDup; eassumption.
Qed.

Lemma assign_keys_NoDup (keys : list string) (v : value) :
  forall d, NoDup (dict_keys d) -> NoDup (dict_keys (assign_keys d keys v)).
Proof.
  induction keys as [|k rest IH]; intros d H; simpl; [assumption|].
  now apply IH, dict_set_NoDup.
Qed.

Lemma normalize_fold_NoDup (dm : dict) :
  forall acc,
    NoDup (dict_keys acc) ->
    NoDup (dict_keys
             (fold_left (fun normalized kv =>
                           normalize_entry normalized (fst kv) (snd kv))
                        dm acc)).
Proof.
  induction dm as [|[raw directive] rest IH]; intros acc H; simpl;
    [assumption|].
  apply IH. unfold normalize_entry.
  destruct directive; now apply assign_keys_NoDup.
Qed.

(** The trees the engine hands out are proper dictionaries: a resolved
    configuration has distinct top-level keys, and its normalized
    [directives] map has distinct keys. *)
Theorem resolved_keys_distinct (pl : pathlib) (fs : filesystem) (fuel : nat)
    (profiles : list string) (cfg : dict) :
  load_config pl fs fuel profiles = Some (Return (Some cfg)) ->
  NoDup (dict_keys cfg) /\
  forall nd, dict_get cfg "directives" = Some (VDict nd) ->
             NoDup (dict_keys nd).
Proof.
  intros H.
  destruct (load_config_success pl fs fuel profiles cfg H)
    as [merged [visited [Hm Hcfg]]].
  assert (Hnd : NoDup (dict_keys merged))
    by (apply (load_profiles_NoDup pl fs fuel profiles [] [] merged visited
                 (NoDup_nil _) Hm)).
  split.
  - subst cfg. unfold normalize_directives.
    destruct (dict_get merged "directives") as [x|]; [|assumption].
    destruct x; try assumption. now apply dict_set_NoDup.
  - intros nd Hget. subst cfg. apply normalize_directives_map in Hget.
    destruct Hget as [dm [_ ->]]. apply normalize_fold_NoDup. constructor.
Qed.

Lemma resolved_keys_distinct_witness :
  NoDup (dict_keys [("a", VInt 1); ("b", VInt 2)]) /\
  forall nd, dict_get [("a", VInt 1); ("b", VInt 2)] "directives"
             = Some (VDict nd) ->
             NoDup (dict_keys nd).
Proof.
  apply (resolved_keys_distinct flat_pathlib fs_directory 2 ["claude"]).
  reflexivity.
Defined.
